(** * Peg_Solitare.py: triangular peg solitaire solver

    A shallow embedding of [Board], [Hole] and [find_solutions] and the
    properties of the board geometry, the move enumerator and the search. *)

From Stdlib Require Import ZArith Lia List Bool.
From stdpp Require Import base list.
Import ListNotations.
Open Scope Z_scope.

(** ** Python values and effects *)

(** The only exception the program can raise is the [IndexError] of a list
    subscript. *)
Inductive result (A : Type) : Type :=
| Ok (a : A)
| IndexError.
Arguments Ok {A} a.
Arguments IndexError {A}.

Definition bind {A B : Type} (r : result A) (k : A -> result B) : result B :=
  match r with
  | Ok a => k a
  | IndexError => IndexError
  end.

Notation "'let!' x ':=' r 'in' k" := (bind r (fun x => k))
  (at level 10, x name, r at level 100, k at level 200).

(** [range(n)]: the integers [0, 1, ..., n-1], empty when [n <= 0]. *)
Definition range (n : Z) : list Z := map Z.of_nat (seq 0 (Z.to_nat n)).

(** The slot a subscript [l[i]] designates in a list of length [len]:
    Python counts a negative subscript from the end of the list and raises
    [IndexError] outside [-len, len). *)
Definition py_slot (len : nat) (i : Z) : result nat :=
  if (0 <=? i) && (i <? Z.of_nat len) then Ok (Z.to_nat i)
  else if (- Z.of_nat len <=? i) && (i <? 0) then Ok (Z.to_nat (Z.of_nat len + i))
  else IndexError.

(** [l[i]] *)
Definition py_get {A : Type} (l : list A) (i : Z) : result A :=
  let! k := py_slot (length l) i in
  match l !! k with
  | Some a => Ok a
  | None => IndexError
  end.

(** ** Data model *)

(** [class Hole]: [pos], [has_peg] and the candidate jumps [moves], each a
    two-element list [[mid, dest]]. *)
Record Hole : Type := mkHole {
  pos : Z;
  has_peg : bool;
  moves : list (Z * Z)
}.

(** [class Board] *)
Record Board : Type := mkBoard {
  size : Z;
  numHoles : Z;
  holes : list Hole;
  winSize : Z;
  route : list (Z * Z)
}.

(** A move of the enumerator, [[hole.pos, move[0], move[1]]]. *)
Definition Move : Type := (Z * Z * Z)%type.

(** [Hole.__init__(n, pos, row, offset)]: three tests, each appending two
    candidates to [self.moves]. *)
Definition Hole_init (n pos row offset : Z) : Hole :=
  let moves0 : list (Z * Z) := [] in
  let moves1 :=
    if offset - row <? -1
    then (moves0 ++ [(pos + 1, pos + 2)]) ++ [(pos - row, pos - 2 * row + 1)]
    else moves0 in
  let moves2 :=
    if offset >? 1
    then (moves1 ++ [(pos - 1, pos - 2)]) ++ [(pos - row - 1, pos - 2 * row - 1)]
    else moves1 in
  let moves3 :=
    if n - row >? 2
    then (moves2 ++ [(pos + row + 1, pos + 2 * (row + 1) + 1)])
           ++ [(pos + row + 2, pos + 2 * (row + 1) + 3)]
    else moves2 in
  {| pos := pos; has_peg := true; moves := moves3 |}.

(** The arguments [(pos, row, offset)] of the successive [Hole(...)] calls of
    the constructor's two nested loops; [pos] is the running counter. *)
Definition row_calls (row : Z) (acc : list (Z * Z * Z) * Z) : list (Z * Z * Z) * Z :=
  fold_left (fun '(calls, pos) offset => (calls ++ [(pos, row, offset)], pos + 1))
            (range (row + 1)) acc.

Definition hole_calls (n : Z) : list (Z * Z * Z) * Z :=
  fold_left (fun acc row => row_calls row acc) (range n) ([], 0).

(** [Board.__init__(n)] *)
Definition Board_init (n : Z) : Board :=
  let numHoles := (n ^ 2 + n) / 2 in
  {| size := n;
     numHoles := numHoles;
     holes := map (fun '(pos, row, offset) => Hole_init n pos row offset)
                  (fst (hole_calls n));
     winSize := numHoles - 2;
     route := [] |}.

(** ** The move enumerator *)

(** The body of the inner loop of [valid_moves] for one candidate [move] of
    [hole]; [and] does not evaluate its second operand when the first is
    false. *)
Definition try_candidate (hs : list Hole) (hole : Hole) (acc : list Move)
    (move : Z * Z) : result (list Move) :=
  let! hm := py_get hs (fst move) in
  if has_peg hm then
    let! hd := py_get hs (snd move) in
    if negb (has_peg hd) then Ok (acc ++ [(pos hole, fst move, snd move)])
    else Ok acc
  else Ok acc.

Fixpoint for_candidates (hs : list Hole) (hole : Hole) (cands : list (Z * Z))
    (acc : list Move) : result (list Move) :=
  match cands with
  | [] => Ok acc
  | move :: rest =>
      let! acc' := try_candidate hs hole acc move in
      for_candidates hs hole rest acc'
  end.

Fixpoint for_holes (hs : list Hole) (todo : list Hole) (acc : list Move)
    : result (list Move) :=
  match todo with
  | [] => Ok acc
  | hole :: rest =>
      let! acc' := (if has_peg hole then for_candidates hs hole (moves hole) acc
                    else Ok acc) in
      for_holes hs rest acc'
  end.

(** [Board.valid_moves()] *)
Definition valid_moves (board : Board) : result (list Move) :=
  for_holes (holes board) (holes board) [].

(** ** The search *)

(** [h.has_peg = v] *)
Definition set_has_peg (h : Hole) (v : bool) : Hole :=
  {| pos := pos h; has_peg := v; moves := moves h |}.

(** [board.holes[i].has_peg = v] *)
Definition set_peg (hs : list Hole) (i : Z) (v : bool) : result (list Hole) :=
  let! k := py_slot (length hs) i in
  match hs !! k with
  | Some h => Ok (<[k := set_has_peg h v]> hs)
  | None => IndexError
  end.

(** Lines 77-83 of [find_solutions]: the deep copy with the move logged and
    performed on it. *)
Definition apply_move (board : Board) (move : Move) : result Board :=
  let '(origin, mid, dest) := move in
  let route' := route board ++ [(origin, dest)] in
  let! hs1 := set_peg (holes board) origin false in
  let! hs2 := set_peg hs1 mid false in
  let! hs3 := set_peg hs2 dest true in
  Ok {| size := size board; numHoles := numHoles board; holes := hs3;
        winSize := winSize board; route := route' |}.

(** The attributes of the function object and the routes printed, in the
    order of printing. *)
Record Stats : Type := mkStats {
  num_of_solutions : Z;
  num_of_function_runs : Z;
  printed : list (list (Z * Z))
}.

Definition count_run (st : Stats) : Stats :=
  {| num_of_solutions := num_of_solutions st;
     num_of_function_runs := num_of_function_runs st + 1;
     printed := printed st |}.

Definition report (show_solutions : bool) (r : list (Z * Z)) (st : Stats) : Stats :=
  {| num_of_solutions := num_of_solutions st + 1;
     num_of_function_runs := num_of_function_runs st;
     printed := if show_solutions then printed st ++ [r] else printed st |}.

(** The [for move in moves] loop of [find_solutions]; [rec] is the recursive
    call.  [None] stands for a computation cut short by the recursion bound.
    A win [return]s from the function, leaving the rest of [moves]. *)
Fixpoint for_moves (rec : Board -> Stats -> option (result Stats))
    (board : Board) (show_solutions : bool) (todo : list Move) (st : Stats)
    : option (result Stats) :=
  match todo with
  | [] => Some (Ok st)
  | move :: rest =>
      match apply_move board move with
      | IndexError => Some IndexError
      | Ok new_board =>
          if Z.of_nat (length (route new_board)) =? winSize new_board
          then Some (Ok (report show_solutions (route new_board) st))
          else match rec new_board st with
               | Some (Ok st') => for_moves rec board show_solutions rest st'
               | stop => stop
               end
      end
  end.

(** [find_solutions(board, show_solutions)], with the depth of the recursion
    bounded by [fuel].  The recursive call leaves [show_solutions] at its
    default [True]. *)
Fixpoint find_solutions (fuel : nat) (board : Board) (show_solutions : bool)
    (st : Stats) : option (result Stats) :=
  match fuel with
  | O => None
  | S fuel' =>
      let st1 := count_run st in
      match valid_moves board with
      | IndexError => Some IndexError
      | Ok moves =>
          if (length moves =? 0)%nat then Some (Ok st1)
          else for_moves (fun b s => find_solutions fuel' b true s)
                         board show_solutions moves st1
      end
  end.

(** The driver: [Board(n)], then [holes[p].has_peg = False] for each initially
    empty position [p], as in [__main__] for position 0. *)
Definition remove_peg (board : Board) (p : Z) : result Board :=
  let! hs := set_peg (holes board) p false in
  Ok {| size := size board; numHoles := numHoles board; holes := hs;
        winSize := winSize board; route := route board |}.

Fixpoint remove_pegs (board : Board) (ps : list Z) : result Board :=
  match ps with
  | [] => Ok board
  | p :: rest => let! b := remove_peg board p in remove_pegs b rest
  end.

Definition createBoard (n : Z) (initialEmptyPositions : list Z) : result Board :=
  remove_pegs (Board_init n) initialEmptyPositions.

Definition stats0 : Stats :=
  {| num_of_solutions := 0; num_of_function_runs := 0; printed := [] |}.

Definition run (fuel : nat) (n : Z) (empties : list Z) : option (result Stats) :=
  match createBoard n empties with
  | IndexError => Some IndexError
  | Ok b => find_solutions fuel b true stats0
  end.

(** ** The search of the specification

    Section 4.3 of the specification: every move of the list is processed,
    also after a win has been reported. *)
Fixpoint spec_for_moves (rec : Board -> Stats -> option (result Stats))
    (board : Board) (todo : list Move) (st : Stats) : option (result Stats) :=
  match todo with
  | [] => Some (Ok st)
  | move :: rest =>
      match apply_move board move with
      | IndexError => Some IndexError
      | Ok candidate =>
          if Z.of_nat (length (route candidate)) =? winSize candidate
          then spec_for_moves rec board rest (report true (route candidate) st)
          else match rec candidate st with
               | Some (Ok st') => spec_for_moves rec board rest st'
               | stop => stop
               end
      end
  end.

Fixpoint spec_search (fuel : nat) (board : Board) (st : Stats)
    : option (result Stats) :=
  match fuel with
  | O => None
  | S fuel' =>
      let st1 := count_run st in
      match valid_moves board with
      | IndexError => Some IndexError
      | Ok moves => spec_for_moves (spec_search fuel') board moves st1
      end
  end.

(** ** Specification-side definitions *)

(** [positionOf(row, offset)] of the specification. *)
Definition positionOf (row offset : Z) : Z := row * (row + 1) / 2 + offset.

(** A valid coordinate pair of a board of side [n]. *)
Definition valid_coord (n row offset : Z) : Prop := 0 <= offset <= row /\ row < n.

(** The three eligibility tests of section 4.2 and what each contributes. *)
Definition east_eligible (row offset : Z) : bool := offset - row <? -1.
Definition west_eligible (offset : Z) : bool := offset >? 1.
Definition south_eligible (n row : Z) : bool := n - row >? 2.

Definition east_candidates (pos row : Z) : list (Z * Z) :=
  [(pos + 1, pos + 2); (pos - row, pos - 2 * row + 1)].
Definition west_candidates (pos row : Z) : list (Z * Z) :=
  [(pos - 1, pos - 2); (pos - row - 1, pos - 2 * row - 1)].
Definition south_candidates (pos row : Z) : list (Z * Z) :=
  [(pos + row + 1, pos + 2 * (row + 1) + 1); (pos + row + 2, pos + 2 * (row + 1) + 3)].

Definition candidateMoves (n pos row offset : Z) : list (Z * Z) :=
  (if east_eligible row offset then east_candidates pos row else [])
  ++ (if west_eligible offset then west_candidates pos row else [])
  ++ (if south_eligible n row then south_candidates pos row else []).

(** [holes[p].hasPeg] for a position [p] of the board. *)
Definition peg_at (hs : list Hole) (p : Z) : bool :=
  (0 <=? p) &&
  match hs !! Z.to_nat p with
  | Some h => has_peg h
  | None => false
  end.

(** The occupancy test of the enumerator on a candidate [(mid, dest)]. *)
Definition legal (hs : list Hole) (c : Z * Z) : bool :=
  peg_at hs (fst c) && negb (peg_at hs (snd c)).

(** The moves emitted for one hole: none without a peg, else its legal
    candidates in their stored order. *)
Definition moves_from (hs : list Hole) (h : Hole) : list Move :=
  if has_peg h
  then map (fun c => (pos h, fst c, snd c)) (List.filter (legal hs) (moves h))
  else [].

(** [validMoves()] of section 4.2: holes in list order, candidates in stored
    order. *)
Definition validMoves_spec (b : Board) : list Move :=
  flat_map (moves_from (holes b)) (holes b).

(** What stays fixed in a hole, and the boards that differ from [Board(n)]
    only in their pegs and their route. *)
Definition geometry (h : Hole) : Z * list (Z * Z) := (pos h, moves h).

Definition shape (n : Z) (b : Board) : Prop :=
  size b = size (Board_init n)
  /\ numHoles b = numHoles (Board_init n)
  /\ winSize b = winSize (Board_init n)
  /\ map geometry (holes b) = map geometry (holes (Board_init n)).

(** A candidate both of whose ends index the list of holes. *)
Definition on_board (hs : list Hole) (c : Z * Z) : Prop :=
  0 <= fst c < Z.of_nat (length hs) /\ 0 <= snd c < Z.of_nat (length hs).

(** The number of pegs on the board. *)
Definition pegs (hs : list Hole) : nat := length (List.filter has_peg hs).

(** The triples [(positionOf row offset, row, offset)] of a board of side [n],
    row after row. *)
Definition coords_upto (n : Z) : list (Z * Z * Z) :=
  flat_map (fun r => map (fun o => (positionOf r o, r, o)) (range (r + 1))) (range n).

(** The states the search can reach from a board in a given number of jumps,
    each jump a move of the enumerator applied as in [find_solutions]. *)
Inductive reached : Board -> nat -> Board -> Prop :=
| reached_here (b : Board) : reached b 0 b
| reached_jump (b : Board) (ms : list Move) (mv : Move) (b1 : Board) (k : nat)
    (b' : Board) :
    valid_moves b = Ok ms -> In mv ms -> apply_move b mv = Ok b1 ->
    reached b1 k b' -> reached b (S k) b'.

Definition Move_eqb (x y : Move) : bool :=
  (fst (fst x) =? fst (fst y)) && (snd (fst x) =? snd (fst y)) && (snd x =? snd y).

(** Replays a sequence of moves, each checked against the enumerator. *)
Fixpoint play (b : Board) (mvs : list Move) : option Board :=
  match mvs with
  | [] => Some b
  | mv :: rest =>
      match valid_moves b with
      | Ok ms =>
          if existsb (Move_eqb mv) ms
          then match apply_move b mv with
               | Ok b1 => play b1 rest
               | IndexError => None
               end
          else None
      | IndexError => None
      end
  end.

(** The board the driver builds, for positions it accepts. *)
Definition board_of (n : Z) (empties : list Z) : Board :=
  match createBoard n empties with
  | Ok b => b
  | IndexError => Board_init n
  end.

(** The board of [__main__]: side 5, the apex empty. *)
Definition main_board : Board := board_of 5 [0].

(** Twelve jumps from [main_board] that leave pegs in holes 1 and 3. *)
Definition twelve_jumps : list Move :=
  [(3, 1, 0); (5, 4, 3); (0, 2, 5); (6, 3, 1); (9, 5, 2); (11, 7, 4);
   (13, 12, 11); (10, 11, 12); (12, 8, 5); (2, 5, 9); (14, 9, 5); (5, 4, 3)].

Definition twelve_routes : list (Z * Z) :=
  map (fun mv => (fst (fst mv), snd mv)) twelve_jumps.

(** The board after a thirteenth jump, from hole 1 over hole 3 into hole 6. *)
Definition won_board : Board :=
  match play main_board (twelve_jumps ++ [(1, 3, 6)]) with
  | Some b => b
  | None => main_board
  end.

(** The six directions of a jump on the triangular grid, as steps
    [(d_row, d_offset)]: east, northeast, west, northwest, south-west,
    south-east. *)
Definition directions : list (Z * Z) :=
  [(0, 1); (-1, 0); (0, -1); (-1, -1); (1, 0); (1, 1)].

(** The hole jumped over and the landing hole, one and two steps away. *)
Definition jump_from (r o : Z) (dir : Z * Z) : Z * Z :=
  (positionOf (r + fst dir) (o + snd dir),
   positionOf (r + 2 * fst dir) (o + 2 * snd dir)).

(** Whether the landing hole is a coordinate of the board of side [n]. *)
Definition lands_on_board (n r o : Z) (dir : Z * Z) : bool :=
  (0 <=? o + 2 * snd dir) && (o + 2 * snd dir <=? r + 2 * fst dir)
  && (r + 2 * fst dir <? n).

(** Counters and output of one search added to those of what ran before. *)
Definition accumulate (st d : Stats) : Stats :=
  {| num_of_solutions := num_of_solutions st + num_of_solutions d;
     num_of_function_runs := num_of_function_runs st + num_of_function_runs d;
     printed := printed st ++ printed d |}.

Definition on_result (f : Stats -> Stats) (o : option (result Stats))
    : option (result Stats) :=
  match o with
  | Some (Ok st) => Some (Ok (f st))
  | other => other
  end.

(** The boards after eleven and after twelve of the [twelve_jumps]. *)
Definition three_pegs_board : Board :=
  match play main_board (firstn 11 twelve_jumps) with
  | Some b => b
  | None => main_board
  end.

Definition two_pegs_board : Board :=
  match play main_board twelve_jumps with
  | Some b => b
  | None => main_board
  end.

(** A board reached from [b] by at least one jump of the search whose route
    has [winSize] pairs. *)
Definition is_win (b w : Board) : Prop :=
  exists k, reached b (S k) w /\ Z.of_nat (length (route w)) = winSize b.

(** How far the counters of the search and of the specification's search
    moved, the one from [st1] to [s1], the other from [st2] to [s2]. *)
Definition same_runs_fewer_wins (st1 s1 st2 s2 : Stats) : Prop :=
  num_of_function_runs s1 - num_of_function_runs st1
  = num_of_function_runs s2 - num_of_function_runs st2
  /\ 0 <= num_of_solutions s1 - num_of_solutions st1
       <= num_of_solutions s2 - num_of_solutions st2
  /\ (0 < num_of_solutions s2 - num_of_solutions st2 ->
      0 < num_of_solutions s1 - num_of_solutions st1).

(** * Geometry *)

Section Geometry.

Lemma range_length (n : Z) : length (range n) = Z.to_nat n.
Proof. unfold range. now rewrite length_map, length_seq. Qed.

Lemma range_lookup (n : Z) (k : nat) :
  (k < Z.to_nat n)%nat -> range n !! k = Some (Z.of_nat k).
Proof.
  intros Hk. unfold range. rewrite list_lookup_fmap, lookup_seq_lt by trivial.
  reflexivity.
Qed.

Lemma In_range (n x : Z) : In x (range n) <-> 0 <= x < n.
Proof.
  unfold range. rewrite in_map_iff. split.
  - intros (k & <- & Hk). apply in_seq in Hk. lia.
  - intros Hx. exists (Z.to_nat x). split; [lia | apply in_seq; lia].
Qed.

Lemma range_nonpos (n : Z) : n <= 0 -> range n = [].
Proof. intros Hn. unfold range. now replace (Z.to_nat n) with 0%nat by lia. Qed.

Lemma range_app (a b : Z) :
  0 <= a -> 0 <= b -> range (a + b) = range a ++ map (fun o => a + o) (range b).
Proof.
  intros Ha Hb. unfold range.
  replace (Z.to_nat (a + b)) with (Z.to_nat a + Z.to_nat b)%nat by lia.
  rewrite seq_app, map_app. f_equal. simpl.
  replace (seq (Z.to_nat a) (Z.to_nat b))
    with (map (Nat.add (Z.to_nat a)) (seq 0 (Z.to_nat b)))
    by (rewrite <- (Nat.add_0_r (Z.to_nat a)) at 2; apply fmap_add_seq).
  rewrite !map_map.
  apply map_ext. intros k. lia.
Qed.

Lemma range_succ (n : Z) : 0 <= n -> range (n + 1) = range n ++ [n].
Proof.
  intros Hn. rewrite range_app by lia. f_equal. simpl. f_equal. lia.
Qed.

Lemma consecutive_product_half (r : Z) : 2 * (r * (r + 1) / 2) = r * (r + 1).
Proof.
  destruct (Z.Even_or_Odd r) as [[k ->] | [k ->]].
  - replace (2 * k * (2 * k + 1)) with (k * (2 * k + 1) * 2) by ring.
    rewrite Z.div_mul by lia. ring.
  - replace ((2 * k + 1) * (2 * k + 1 + 1)) with ((2 * k + 1) * (k + 1) * 2) by ring.
    rewrite Z.div_mul by lia. ring.
Qed.

Lemma positionOf_double (r o : Z) : 2 * positionOf r o = r * (r + 1) + 2 * o.
Proof. unfold positionOf. pose proof (consecutive_product_half r). lia. Qed.

Lemma positionOf_next_row (r : Z) : positionOf (r + 1) 0 = positionOf r 0 + (r + 1).
Proof.
  pose proof (positionOf_double (r + 1) 0). pose proof (positionOf_double r 0). lia.
Qed.

Lemma positionOf_offset (r o : Z) : positionOf r o = positionOf r 0 + o.
Proof. unfold positionOf. lia. Qed.

Lemma numHoles_Board_init (n : Z) : numHoles (Board_init n) = positionOf n 0.
Proof. unfold positionOf. simpl. rewrite Z.add_0_r. f_equal. ring. Qed.

(** The inner loop appends one call per offset and advances the counter. *)
Lemma row_calls_spec (row : Z) (calls : list (Z * Z * Z)) (p : Z) :
  0 <= row ->
  row_calls row (calls, p)
  = (calls ++ map (fun o => (p + o, row, o)) (range (row + 1)), p + (row + 1)).
Proof.
  intros Hrow. unfold row_calls.
  replace (row + 1) with (Z.of_nat (Z.to_nat (row + 1))) by lia.
  induction (Z.to_nat (row + 1)) as [|m IH].
  - simpl. rewrite app_nil_r. f_equal. lia.
  - rewrite Nat2Z.inj_succ, <- Z.add_1_r, range_succ by lia.
    rewrite fold_left_app, IH. simpl.
    rewrite map_app, app_assoc. simpl. f_equal. lia.
Qed.

Lemma hole_calls_spec (n : Z) :
  hole_calls n = (coords_upto n, positionOf (Z.max n 0) 0).
Proof.
  unfold hole_calls, coords_upto.
  destruct (Z.le_gt_cases n 0) as [Hn | Hn].
  - rewrite (range_nonpos n), Z.max_r by lia. reflexivity.
  - rewrite Z.max_l by lia.
    replace n with (Z.of_nat (Z.to_nat n)) by lia.
    induction (Z.to_nat n) as [|m IH].
    + reflexivity.
    + rewrite Nat2Z.inj_succ, <- Z.add_1_r, range_succ by lia.
      rewrite fold_left_app, IH, flat_map_app. simpl.
      rewrite row_calls_spec by lia. rewrite app_nil_r.
      rewrite positionOf_next_row. f_equal. f_equal.
      apply map_ext. intros o. now rewrite (positionOf_offset (Z.of_nat m) o).
Qed.

Lemma In_coords_upto (n p r o : Z) :
  In (p, r, o) (coords_upto n) <-> valid_coord n r o /\ p = positionOf r o.
Proof.
  unfold coords_upto, valid_coord. rewrite in_flat_map. split.
  - intros (r' & Hr' & Hin). apply In_range in Hr'.
    apply in_map_iff in Hin as (o' & Heq & Ho'). apply In_range in Ho'.
    injection Heq as <- <- <-. lia.
  - intros (Hv & ->). exists r. split; [apply In_range; lia |].
    apply in_map_iff. exists o. split; [reflexivity | apply In_range; lia].
Qed.

(** The running counter numbers the calls 0, 1, 2, ... *)
Lemma coords_upto_positions (n : Z) :
  map (fun c => fst (fst c)) (coords_upto n) = range (positionOf (Z.max n 0) 0).
Proof.
  unfold coords_upto.
  destruct (Z.le_gt_cases n 0) as [Hn | Hn].
  - rewrite (range_nonpos n), Z.max_r by lia. reflexivity.
  - rewrite Z.max_l by lia.
    replace n with (Z.of_nat (Z.to_nat n)) by lia.
    induction (Z.to_nat n) as [|m IH].
    + reflexivity.
    + rewrite Nat2Z.inj_succ, <- Z.add_1_r, range_succ by lia.
      rewrite flat_map_app, map_app, IH. simpl. rewrite app_nil_r, map_map. simpl.
      rewrite positionOf_next_row.
      assert (0 <= positionOf (Z.of_nat m) 0)
        by (pose proof (positionOf_double (Z.of_nat m) 0); nia).
      rewrite (range_app (positionOf (Z.of_nat m) 0)) by lia.
      f_equal. apply map_ext. intros o. apply positionOf_offset.
Qed.

Lemma Hole_init_moves (n p row offset : Z) :
  moves (Hole_init n p row offset) = candidateMoves n p row offset.
Proof.
  unfold Hole_init, candidateMoves, east_eligible, west_eligible, south_eligible.
  cbn [moves].
  destruct (offset - row <? -1), (offset >? 1), (n - row >? 2); reflexivity.
Qed.

Lemma positionOf_bounds (n r o : Z) :
  valid_coord n r o -> 0 <= positionOf r o < positionOf n 0.
Proof.
  intros [Ho Hr].
  pose proof (positionOf_double r o). pose proof (positionOf_double n 0). nia.
Qed.

Lemma positionOf_inj (r o r' o' : Z) :
  0 <= o <= r -> 0 <= o' <= r' -> positionOf r o = positionOf r' o' ->
  r = r' /\ o = o'.
Proof.
  intros Ho Ho' Heq.
  pose proof (positionOf_double r o). pose proof (positionOf_double r' o').
  assert (r = r') by nia. subst r'. lia.
Qed.

(** Every candidate of a hole of the board lies on the board, away from the
    hole itself, and jumps over a different hole than it lands on. *)
Lemma candidate_on_board (n r o m d : Z) :
  valid_coord n r o ->
  In (m, d) (candidateMoves n (positionOf r o) r o) ->
  (0 <= m < positionOf n 0) /\ (0 <= d < positionOf n 0)
  /\ m <> positionOf r o /\ d <> positionOf r o /\ m <> d.
Proof.
  intros [Ho Hr] Hin.
  pose proof (positionOf_double r o) as Hp.
  pose proof (positionOf_double n 0) as HN.
  unfold candidateMoves, east_eligible, west_eligible, south_eligible in Hin.
  rewrite !in_app_iff in Hin.
  destruct Hin as [Hin | [Hin | Hin]].
  - destruct (Z.ltb_spec (o - r) (-1)) as [He | He]; [| contradiction].
    destruct Hin as [Heq | [Heq | []]]; injection Heq as <- <-; nia.
  - destruct (Z.gtb_spec o 1) as [Hw | Hw]; [| contradiction].
    destruct Hin as [Heq | [Heq | []]]; injection Heq as <- <-; nia.
  - destruct (Z.gtb_spec (n - r) 2) as [Hs | Hs]; [| contradiction].
    destruct Hin as [Heq | [Heq | []]]; injection Heq as <- <-; nia.
Qed.

Lemma holes_Board_init (n : Z) :
  holes (Board_init n)
  = map (fun c => Hole_init n (fst (fst c)) (snd (fst c)) (snd c)) (coords_upto n).
Proof.
  unfold Board_init. cbn [holes]. rewrite hole_calls_spec. cbn [fst].
  apply map_ext. now intros [[p r] o].
Qed.

Lemma coords_upto_lookup (n : Z) (k : nat) (p r o : Z) :
  coords_upto n !! k = Some (p, r, o) ->
  valid_coord n r o /\ p = Z.of_nat k /\ p = positionOf r o.
Proof.
  intros Hk.
  assert (Hin : In (p, r, o) (coords_upto n))
    by (apply list_elem_of_In, list_elem_of_lookup; eauto).
  apply In_coords_upto in Hin as [Hv Hp]. split; [exact Hv | split; [| exact Hp]].
  assert (Hpos : map (fun c => fst (fst c)) (coords_upto n) !! k = Some p)
    by (change (map ?f ?l) with (f <$> l); rewrite list_lookup_fmap, Hk; reflexivity).
  rewrite coords_upto_positions in Hpos.
  assert (Hlt : (k < Z.to_nat (positionOf (Z.max n 0) 0))%nat)
    by (rewrite <- range_length; eapply lookup_lt_Some; eauto).
  rewrite range_lookup in Hpos by exact Hlt. congruence.
Qed.

Lemma length_holes_Board_init (n : Z) :
  Z.of_nat (length (holes (Board_init n))) = positionOf (Z.max n 0) 0.
Proof.
  rewrite holes_Board_init, length_map.
  rewrite <- (length_map (fun c => fst (fst c))), coords_upto_positions, range_length.
  pose proof (positionOf_double (Z.max n 0) 0). nia.
Qed.

Lemma Board_init_lookup (n : Z) (k : nat) (h : Hole) :
  holes (Board_init n) !! k = Some h ->
  exists r o, valid_coord n r o /\ Z.of_nat k = positionOf r o
              /\ h = Hole_init n (Z.of_nat k) r o.
Proof.
  rewrite holes_Board_init. change (map ?f ?l) with (f <$> l).
  rewrite list_lookup_fmap. intros Hk.
  destruct (coords_upto n !! k) as [[[p r] o] |] eqn:Hc; [| discriminate].
  apply coords_upto_lookup in Hc as (Hv & Hp & Hpo).
  injection Hk as <-. cbn [fst snd]. exists r, o. subst p. auto.
Qed.

End Geometry.

(** * Boards of the shape of [Board(n)] *)

Section Shape.

Variable n : Z.
Variable b : Board.
Hypothesis Hshape : shape n b.

Lemma shape_length : Z.of_nat (length (holes b)) = positionOf (Z.max n 0) 0.
Proof.
  destruct Hshape as (_ & _ & _ & Hg).
  rewrite <- length_holes_Board_init, <- (length_map geometry), Hg, length_map.
  reflexivity.
Qed.

Lemma shape_lookup (k : nat) (h : Hole) :
  holes b !! k = Some h ->
  exists r o, valid_coord n r o /\ Z.of_nat k = positionOf r o
              /\ pos h = Z.of_nat k
              /\ moves h = candidateMoves n (Z.of_nat k) r o.
Proof.
  intros Hk. destruct Hshape as (_ & _ & _ & Hg).
  assert (Hgk : map geometry (holes b) !! k = Some (geometry h))
    by (change (map ?f ?l) with (f <$> l); rewrite list_lookup_fmap, Hk; reflexivity).
  rewrite Hg in Hgk. change (map ?f ?l) with (f <$> l) in Hgk.
  rewrite list_lookup_fmap in Hgk.
  destruct (holes (Board_init n) !! k) as [h0 |] eqn:H0; [| discriminate].
  apply Board_init_lookup in H0 as (r & o & Hv & Hp & ->).
  cbn [fmap option_fmap option_map] in Hgk.
  assert (Hgeo : geometry h = geometry (Hole_init n (Z.of_nat k) r o)) by congruence.
  pose proof (f_equal fst Hgeo) as Hpos. pose proof (f_equal snd Hgeo) as Hmoves.
  cbn [fst snd geometry] in Hpos, Hmoves. rewrite Hole_init_moves in Hmoves.
  exists r, o. auto.
Qed.

Lemma shape_numHoles : 0 <= n -> Z.of_nat (length (holes b)) = numHoles b.
Proof.
  intros Hn. rewrite shape_length, Z.max_l by lia.
  destruct Hshape as (_ & -> & _). now rewrite numHoles_Board_init.
Qed.

End Shape.


(** * The move enumerator *)

Section Enumerator.

Lemma py_slot_in_range (len : nat) (i : Z) :
  0 <= i < Z.of_nat len -> py_slot len i = Ok (Z.to_nat i).
Proof.
  intros Hi. unfold py_slot.
  destruct (Z.leb_spec 0 i); [| lia]. destruct (Z.ltb_spec i (Z.of_nat len)); [| lia].
  reflexivity.
Qed.

Lemma py_get_in_range {A : Type} (l : list A) (i : Z) :
  0 <= i < Z.of_nat (length l) ->
  exists a, l !! Z.to_nat i = Some a /\ py_get l i = Ok a.
Proof.
  intros Hi. unfold py_get. rewrite py_slot_in_range by exact Hi. cbn [bind].
  destruct (lookup_lt_is_Some_2 l (Z.to_nat i)) as [a Ha]; [lia |].
  exists a. now rewrite Ha.
Qed.

Lemma py_get_peg_at (hs : list Hole) (i : Z) :
  0 <= i < Z.of_nat (length hs) ->
  exists h, py_get hs i = Ok h /\ has_peg h = peg_at hs i.
Proof.
  intros Hi. destruct (py_get_in_range hs i Hi) as (h & Hl & Hg).
  exists h. split; [exact Hg |]. unfold peg_at. rewrite Hl.
  destruct (Z.leb_spec 0 i); [reflexivity | lia].
Qed.

Lemma try_candidate_spec (hs : list Hole) (hole : Hole) (acc : list Move) (c : Z * Z) :
  on_board hs c ->
  try_candidate hs hole acc c
  = Ok (if legal hs c then acc ++ [(pos hole, fst c, snd c)] else acc).
Proof.
  intros [Hm Hd]. unfold try_candidate, legal.
  destruct (py_get_peg_at hs (fst c) Hm) as (hm & -> & <-).
  destruct (py_get_peg_at hs (snd c) Hd) as (hd & -> & <-).
  cbn [bind]. destruct (has_peg hm); [| reflexivity]. cbn [bind andb].
  destruct (has_peg hd); reflexivity.
Qed.

Lemma for_candidates_spec (hs : list Hole) (hole : Hole) (cands : list (Z * Z))
    (acc : list Move) :
  Forall (on_board hs) cands ->
  for_candidates hs hole cands acc
  = Ok (acc ++ map (fun c => (pos hole, fst c, snd c)) (List.filter (legal hs) cands)).
Proof.
  intros Hall. revert acc.
  induction Hall as [| c rest Hc _ IH]; intros acc; cbn [for_candidates List.filter].
  - now rewrite app_nil_r.
  - rewrite try_candidate_spec by exact Hc. cbn [bind]. rewrite IH.
    destruct (legal hs c); [| reflexivity].
    cbn [map]. now rewrite <- app_assoc.
Qed.

Lemma for_holes_spec (hs todo : list Hole) (acc : list Move) :
  Forall (fun h => Forall (on_board hs) (moves h)) todo ->
  for_holes hs todo acc = Ok (acc ++ flat_map (moves_from hs) todo).
Proof.
  intros Hall. revert acc.
  induction Hall as [| h rest Hh _ IH]; intros acc; cbn [for_holes flat_map].
  - now rewrite app_nil_r.
  - unfold moves_from at 1. destruct (has_peg h).
    + rewrite for_candidates_spec by exact Hh. cbn [bind].
      now rewrite IH, <- app_assoc.
    + cbn [bind]. now rewrite IH.
Qed.

(** On a board of the shape of [Board(n)] every stored candidate indexes the
    list of holes. *)
Lemma shape_on_board (n : Z) (b : Board) :
  shape n b -> Forall (fun h => Forall (on_board (holes b)) (moves h)) (holes b).
Proof.
  intros Hs. apply Forall_forall. intros h Hh. apply Forall_forall. intros [m d] Hc.
  apply list_elem_of_lookup in Hh as [k Hk]. apply list_elem_of_In in Hc.
  destruct (shape_lookup n b Hs k h Hk) as (r & o & Hv & Hp & _ & Hm).
  rewrite Hm, Hp in Hc.
  destruct (candidate_on_board n r o m d Hv Hc) as (Hmr & Hdr & _).
  unfold on_board. cbn [fst snd]. rewrite (shape_length n b Hs).
  assert (0 < n) by (destruct Hv; lia). rewrite Z.max_l by lia. auto.
Qed.

Lemma valid_moves_shape (n : Z) (b : Board) :
  shape n b -> valid_moves b = Ok (validMoves_spec b).
Proof.
  intros Hs. unfold valid_moves, validMoves_spec.
  rewrite for_holes_spec by (eapply shape_on_board; eauto). reflexivity.
Qed.

Lemma In_validMoves_spec (b : Board) (o m d : Z) :
  In (o, m, d) (validMoves_spec b) <->
  exists k h, holes b !! k = Some h /\ has_peg h = true /\ o = pos h
              /\ In (m, d) (moves h)
              /\ peg_at (holes b) m = true /\ peg_at (holes b) d = false.
Proof.
  unfold validMoves_spec. rewrite in_flat_map. split.
  - intros (h & Hh & Hin).
    apply list_elem_of_In, list_elem_of_lookup in Hh as [k Hk].
    unfold moves_from in Hin. destruct (has_peg h) eqn:Hpeg; [| contradiction].
    apply in_map_iff in Hin as ([m' d'] & Heq & Hf). injection Heq as <- <- <-.
    apply filter_In in Hf as [Hc Hl]. unfold legal in Hl. cbn [fst snd] in Hl.
    apply andb_true_iff in Hl as [Hm Hd]. apply negb_true_iff in Hd.
    exists k, h. auto 10.
  - intros (k & h & Hk & Hpeg & -> & Hc & Hm & Hd).
    exists h. split; [apply list_elem_of_In, list_elem_of_lookup; eauto |].
    unfold moves_from. rewrite Hpeg. apply in_map_iff. exists (m, d).
    split; [reflexivity |]. apply filter_In. split; [exact Hc |].
    unfold legal. cbn [fst snd]. now rewrite Hm, Hd.
Qed.

(** A move of the enumerator on a board of the shape of [Board(n)]: three
    different holes of the board, two pegs and a gap. *)
Lemma valid_move_facts (n : Z) (b : Board) (o m d : Z) :
  shape n b -> In (o, m, d) (validMoves_spec b) ->
  (0 <= o < Z.of_nat (length (holes b)))
  /\ (0 <= m < Z.of_nat (length (holes b)))
  /\ (0 <= d < Z.of_nat (length (holes b)))
  /\ o <> m /\ o <> d /\ m <> d
  /\ peg_at (holes b) o = true /\ peg_at (holes b) m = true
  /\ peg_at (holes b) d = false.
Proof.
  intros Hs Hin.
  apply In_validMoves_spec in Hin as (k & h & Hk & Hpeg & -> & Hc & Hm & Hd).
  destruct (shape_lookup n b Hs k h Hk) as (r & o & Hv & Hp & Hpos & Hmv).
  rewrite Hmv, Hp in Hc.
  destruct (candidate_on_board n r o m d Hv Hc) as (Hmr & Hdr & Hmo & Hdo & Hmd).
  assert (0 < n) by (destruct Hv; lia).
  rewrite (shape_length n b Hs), Z.max_l by lia.
  pose proof (positionOf_bounds n r o Hv).
  rewrite Hpos, Hp. repeat split; try lia; try congruence.
  unfold peg_at. rewrite <- Hp, Nat2Z.id, Hk, Hpeg.
  destruct (Z.leb_spec 0 (Z.of_nat k)); [reflexivity | lia].
Qed.

End Enumerator.

(** * Applying a move *)

Section ApplyMove.

Lemma py_slot_lt (len : nat) (i : Z) (k : nat) :
  py_slot len i = Ok k -> (k < len)%nat.
Proof.
  unfold py_slot.
  destruct (Z.leb_spec 0 i), (Z.ltb_spec i (Z.of_nat len)); cbn [andb];
    try (intros [= <-]; lia);
    destruct (Z.leb_spec (- Z.of_nat len) i), (Z.ltb_spec i 0); cbn [andb];
    try discriminate; intros [= <-]; lia.
Qed.

Lemma py_get_inv {A : Type} (l : list A) (i : Z) (a : A) :
  py_get l i = Ok a -> exists k, py_slot (length l) i = Ok k /\ l !! k = Some a.
Proof.
  unfold py_get. destruct (py_slot (length l) i) as [k |]; [| discriminate].
  cbn [bind]. destruct (l !! k) as [a' |] eqn:Hk; [| discriminate].
  intros [= <-]. eauto.
Qed.

Lemma py_get_slot {A : Type} (l : list A) (i : Z) (k : nat) (a : A) :
  py_slot (length l) i = Ok k -> l !! k = Some a -> py_get l i = Ok a.
Proof. intros Hs Hk. unfold py_get. rewrite Hs. cbn [bind]. now rewrite Hk. Qed.

Lemma set_peg_slot (hs : list Hole) (i : Z) (v : bool) (k : nat) (h : Hole) :
  py_slot (length hs) i = Ok k -> hs !! k = Some h ->
  set_peg hs i v = Ok (<[k := set_has_peg h v]> hs).
Proof. intros Hs Hk. unfold set_peg. rewrite Hs. cbn [bind]. now rewrite Hk. Qed.

Lemma set_peg_inv (hs hs' : list Hole) (i : Z) (v : bool) :
  set_peg hs i v = Ok hs' ->
  exists k h, py_slot (length hs) i = Ok k /\ hs !! k = Some h
              /\ hs' = <[k := set_has_peg h v]> hs.
Proof.
  unfold set_peg. destruct (py_slot (length hs) i) as [k |]; [| discriminate].
  cbn [bind]. destruct (hs !! k) as [h |] eqn:Hk; [| discriminate].
  intros [= <-]. eauto.
Qed.

Lemma set_peg_error (hs : list Hole) (i : Z) (v : bool) :
  set_peg hs i v = IndexError <-> ~ (- Z.of_nat (length hs) <= i < Z.of_nat (length hs)).
Proof.
  unfold set_peg, py_slot.
  destruct (Z.leb_spec 0 i), (Z.ltb_spec i (Z.of_nat (length hs))); cbn [andb bind].
  - destruct (lookup_lt_is_Some_2 hs (Z.to_nat i)) as [h ->]; [lia |].
    split; [discriminate | lia].
  - destruct (Z.leb_spec (- Z.of_nat (length hs)) i), (Z.ltb_spec i 0);
      cbn [andb bind]; try (split; [lia | reflexivity]); lia.
  - destruct (Z.leb_spec (- Z.of_nat (length hs)) i), (Z.ltb_spec i 0);
      cbn [andb bind]; try lia.
    + destruct (lookup_lt_is_Some_2 hs (Z.to_nat (Z.of_nat (length hs) + i)))
        as [h ->]; [lia |].
      split; [discriminate | lia].
    + split; [lia | reflexivity].
  - lia.
Qed.

Lemma geometry_insert (hs : list Hole) (k : nat) (h : Hole) (v : bool) :
  hs !! k = Some h ->
  map geometry (<[k := set_has_peg h v]> hs) = map geometry hs.
Proof.
  intros Hk. change (map ?f ?l) with (f <$> l).
  rewrite list_fmap_insert. apply list_insert_id.
  rewrite list_lookup_fmap, Hk. reflexivity.
Qed.

Lemma set_peg_geometry (hs hs' : list Hole) (i : Z) (v : bool) :
  set_peg hs i v = Ok hs' -> map geometry hs' = map geometry hs.
Proof.
  intros H. apply set_peg_inv in H as (k & h & _ & Hk & ->).
  now apply geometry_insert.
Qed.

Lemma set_peg_length (hs hs' : list Hole) (i : Z) (v : bool) :
  set_peg hs i v = Ok hs' -> length hs' = length hs.
Proof.
  intros H. apply set_peg_inv in H as (k & h & _ & Hk & ->). apply length_insert.
Qed.

(** Replacing one hole changes the count by what that hole held. *)
Lemma pegs_insert (hs : list Hole) (k : nat) (h h' : Hole) :
  hs !! k = Some h ->
  (pegs (<[k := h']> hs) + Nat.b2n (has_peg h) = pegs hs + Nat.b2n (has_peg h'))%nat.
Proof.
  unfold pegs. revert k. induction hs as [| x hs IH]; intros k Hk; [discriminate |].
  destruct k as [| k].
  - injection Hk as ->. cbn [List.filter insert list_insert].
    destruct (has_peg h), (has_peg h'); cbn [length Nat.b2n]; lia.
  - cbn [lookup list_lookup] in Hk. specialize (IH k Hk).
    change (<[S k := h']> (x :: hs)) with (x :: <[k := h']> hs).
    cbn [List.filter]. destruct (has_peg x); cbn [length]; lia.
Qed.

Lemma peg_at_insert (hs : list Hole) (k : nat) (h : Hole) (v : bool) (j : Z) :
  (k < length hs)%nat -> 0 <= j ->
  peg_at (<[k := set_has_peg h v]> hs) j
  = if decide (Z.to_nat j = k) then v else peg_at hs j.
Proof.
  intros Hk Hj. unfold peg_at. destruct (Z.leb_spec 0 j); [| lia]. cbn [andb].
  destruct (decide (Z.to_nat j = k)) as [-> | Hne].
  - now rewrite list_lookup_insert_eq by exact Hk.
  - now rewrite list_lookup_insert_ne by congruence.
Qed.

(** The board after a jump over three slots of which the landing slot
    differs from the other two. *)
Lemma apply_move_slots (b : Board) (origin mid dest : Z) (ko km kd : nat)
    (ho hm hd : Hole) :
  py_slot (length (holes b)) origin = Ok ko -> holes b !! ko = Some ho ->
  py_slot (length (holes b)) mid = Ok km -> holes b !! km = Some hm ->
  py_slot (length (holes b)) dest = Ok kd -> holes b !! kd = Some hd ->
  kd <> ko -> kd <> km ->
  apply_move b (origin, mid, dest)
  = Ok {| size := size b; numHoles := numHoles b;
          holes := <[kd := set_has_peg hd true]>
                     (<[km := set_has_peg hm false]>
                        (<[ko := set_has_peg ho false]> (holes b)));
          winSize := winSize b;
          route := route b ++ [(origin, dest)] |}.
Proof.
  intros Hso Hko Hsm Hkm Hsd Hkd Hdo Hdm. unfold apply_move.
  pose proof (py_slot_lt _ _ _ Hso) as Hlo.
  rewrite (set_peg_slot _ _ _ _ _ Hso Hko). cbn [bind].
  assert (Hkm1 : exists hm1, <[ko := set_has_peg ho false]> (holes b) !! km = Some hm1
                             /\ set_has_peg hm1 false = set_has_peg hm false).
  { destruct (decide (km = ko)) as [-> | Hne].
    - exists (set_has_peg ho false). rewrite list_lookup_insert_eq by exact Hlo.
      split; [reflexivity |]. assert (hm = ho) by congruence. now subst hm.
    - exists hm. now rewrite list_lookup_insert_ne by congruence. }
  destruct Hkm1 as (hm1 & Hkm1 & Heq).
  rewrite (set_peg_slot _ mid false km hm1) by (rewrite ?length_insert; assumption).
  cbn [bind]. rewrite Heq.
  rewrite (set_peg_slot _ dest true kd hd).
  - reflexivity.
  - now rewrite !length_insert.
  - now rewrite !list_lookup_insert_ne by congruence.
Qed.

Lemma peg_at_lookup (hs : list Hole) (i : Z) :
  0 <= i < Z.of_nat (length hs) ->
  exists h, hs !! Z.to_nat i = Some h /\ has_peg h = peg_at hs i.
Proof.
  intros Hi. destruct (lookup_lt_is_Some_2 hs (Z.to_nat i)) as [h Hh]; [lia |].
  exists h. split; [exact Hh |]. unfold peg_at. rewrite Hh.
  destruct (Z.leb_spec 0 i); [reflexivity | lia].
Qed.

(** A move of the enumerator applies without error, keeps the shape of the
    board, extends the route by one jump and takes one peg off. *)
Lemma apply_move_valid (n : Z) (b : Board) (o m d : Z) :
  shape n b -> In (o, m, d) (validMoves_spec b) ->
  exists b', apply_move b (o, m, d) = Ok b'
             /\ shape n b'
             /\ route b' = route b ++ [(o, d)]
             /\ S (pegs (holes b')) = pegs (holes b).
Proof.
  intros Hs Hin.
  destruct (valid_move_facts n b o m d Hs Hin)
    as (Ho & Hm & Hd & Hom & Hod & Hmd & Hpo & Hpm & Hpd).
  destruct (peg_at_lookup _ _ Ho) as (ho & Hko & Hho).
  destruct (peg_at_lookup _ _ Hm) as (hm & Hkm & Hhm).
  destruct (peg_at_lookup _ _ Hd) as (hd & Hkd & Hhd).
  rewrite Hpo in Hho. rewrite Hpm in Hhm. rewrite Hpd in Hhd.
  assert (Hne1 : Z.to_nat d <> Z.to_nat o) by lia.
  assert (Hne2 : Z.to_nat d <> Z.to_nat m) by lia.
  assert (Hne3 : Z.to_nat m <> Z.to_nat o) by lia.
  eexists. split.
  { apply (apply_move_slots b o m d (Z.to_nat o) (Z.to_nat m) (Z.to_nat d) ho hm hd);
      try apply py_slot_in_range; assumption. }
  assert (Hkm1 : <[Z.to_nat o := set_has_peg ho false]> (holes b) !! Z.to_nat m = Some hm)
    by now rewrite list_lookup_insert_ne by congruence.
  assert (Hkd2 : <[Z.to_nat m := set_has_peg hm false]>
                   (<[Z.to_nat o := set_has_peg ho false]> (holes b)) !! Z.to_nat d
                 = Some hd)
    by now rewrite !list_lookup_insert_ne by congruence.
  split; [| split; [reflexivity |]].
  - destruct Hs as (Hsz & Hnh & Hws & Hg). repeat split; cbn; try assumption.
    now rewrite !geometry_insert.
  - cbn [holes].
    pose proof (pegs_insert _ _ _ (set_has_peg ho false) Hko) as P1.
    pose proof (pegs_insert _ _ _ (set_has_peg hm false) Hkm1) as P2.
    pose proof (pegs_insert _ _ _ (set_has_peg hd true) Hkd2) as P3.
    rewrite Hho in P1. rewrite Hhm in P2. rewrite Hhd in P3.
    cbn [has_peg set_has_peg Nat.b2n] in P1, P2, P3. lia.
Qed.

End ApplyMove.

(** * The search *)

Section Search.

Lemma valid_moves_ok (n : Z) (b : Board) (ms : list Move) :
  shape n b -> valid_moves b = Ok ms -> ms = validMoves_spec b.
Proof. intros Hs H. rewrite (valid_moves_shape n b Hs) in H. congruence. Qed.

(** The loop returns when every recursive call it makes does. *)
Lemma for_moves_total (n : Z) (b : Board) (show_solutions : bool)
    (rec : Board -> Stats -> option (result Stats)) (todo : list Move) :
  shape n b ->
  (forall mv, In mv todo -> In mv (validMoves_spec b)) ->
  (forall mv b', In mv todo -> apply_move b mv = Ok b' ->
                 Z.of_nat (length (route b')) <> winSize b' ->
                 forall st, exists st', rec b' st = Some (Ok st')) ->
  forall st, exists st', for_moves rec b show_solutions todo st = Some (Ok st').
Proof.
  intros Hs. induction todo as [| [[o m] d] rest IH]; intros Hin Hrec st.
  - cbn [for_moves]. eauto.
  - cbn [for_moves].
    destruct (apply_move_valid n b o m d Hs (Hin _ (or_introl eq_refl)))
      as (b' & Happ & Hs' & Hroute & Hpegs).
    rewrite Happ.
    destruct (Z.eqb_spec (Z.of_nat (length (route b'))) (winSize b')) as [Hwin | Hgo].
    + eauto.
    + destruct (Hrec _ b' (or_introl eq_refl) Happ Hgo st) as [st1 ->].
      apply IH.
      * intros mv Hmv. apply Hin. now right.
      * intros mv b1 Hmv. apply Hrec. now right.
Qed.

(** The number of pegs bounds the depth of the recursion. *)
Lemma find_solutions_total (n : Z) (fuel : nat) :
  forall (b : Board) (show_solutions : bool) (st : Stats),
    shape n b -> (pegs (holes b) < fuel)%nat ->
    exists st', find_solutions fuel b show_solutions st = Some (Ok st').
Proof.
  induction fuel as [| fuel IH]; intros b show_solutions st Hs Hfuel; [lia |].
  cbn [find_solutions]. rewrite (valid_moves_shape n b Hs).
  destruct (length (validMoves_spec b) =? 0)%nat; [eauto |].
  apply (for_moves_total n); [exact Hs | auto |].
  intros [[o m] d] b' Hin Happ _ st1.
  destruct (apply_move_valid n b o m d Hs Hin) as (b1 & Happ1 & Hs1 & _ & Hpegs).
  assert (b1 = b') by congruence. subst b1.
  apply IH; [exact Hs1 | lia].
Qed.

(** Below [winSize] the length of the route bounds it as well. *)
Lemma find_solutions_total_route (n : Z) (fuel : nat) :
  forall (b : Board) (show_solutions : bool) (st : Stats),
    shape n b ->
    0 < winSize b - Z.of_nat (length (route b)) <= Z.of_nat fuel ->
    exists st', find_solutions fuel b show_solutions st = Some (Ok st').
Proof.
  induction fuel as [| fuel IH]; intros b show_solutions st Hs Hfuel; [lia |].
  cbn [find_solutions]. rewrite (valid_moves_shape n b Hs).
  destruct (length (validMoves_spec b) =? 0)%nat; [eauto |].
  apply (for_moves_total n); [exact Hs | auto |].
  intros [[o m] d] b' Hin Happ Hgo st1.
  destruct (apply_move_valid n b o m d Hs Hin) as (b1 & Happ1 & Hs1 & Hroute & _).
  assert (b1 = b') by congruence. subst b1.
  assert (Hw : winSize b' = winSize b)
    by (destruct Hs as (_ & _ & -> & _), Hs1 as (_ & _ & -> & _); reflexivity).
  rewrite Hroute, length_app in Hgo. cbn [length] in Hgo.
  apply IH; [exact Hs1 |].
  rewrite Hroute, length_app, Hw. cbn [length]. lia.
Qed.

(** More fuel does not change a result. *)
Lemma for_moves_mono (rec rec' : Board -> Stats -> option (result Stats))
    (b : Board) (show_solutions : bool) (todo : list Move) :
  (forall b' st r, rec b' st = Some r -> rec' b' st = Some r) ->
  forall st r, for_moves rec b show_solutions todo st = Some r ->
               for_moves rec' b show_solutions todo st = Some r.
Proof.
  intros Hrec. induction todo as [| mv rest IH]; intros st r; cbn [for_moves]; [auto |].
  destruct (apply_move b mv) as [b' |]; [| auto].
  destruct (Z.of_nat (length (route b')) =? winSize b'); [auto |].
  destruct (rec b' st) as [[st1 |] |] eqn:Hr; [| | discriminate].
  - rewrite (Hrec _ _ _ Hr). apply IH.
  - rewrite (Hrec _ _ _ Hr). auto.
Qed.

Lemma find_solutions_step (fuel : nat) :
  forall (b : Board) (show_solutions : bool) (st : Stats) (r : result Stats),
    find_solutions fuel b show_solutions st = Some r ->
    find_solutions (S fuel) b show_solutions st = Some r.
Proof.
  induction fuel as [| fuel IH]; intros b show_solutions st r; [discriminate |].
  intros H. cbn [find_solutions] in H |- *.
  destruct (valid_moves b) as [ms |]; [| exact H].
  destruct (length ms =? 0)%nat; [exact H |].
  eapply for_moves_mono; [| exact H].
  intros b' st1 r1. apply IH.
Qed.

Lemma find_solutions_mono (fuel fuel' : nat) (b : Board) (show_solutions : bool)
    (st : Stats) (r : result Stats) :
  (fuel <= fuel')%nat ->
  find_solutions fuel b show_solutions st = Some r ->
  find_solutions fuel' b show_solutions st = Some r.
Proof.
  induction 1 as [| k _ IH]; [auto |]. intros H. apply find_solutions_step. auto.
Qed.

(** A win at the first move ends the call, whatever moves follow it. *)
Lemma find_solutions_first_win (fuel : nat) (b b' : Board) (show_solutions : bool)
    (st : Stats) (mv : Move) (rest : list Move) :
  valid_moves b = Ok (mv :: rest) -> apply_move b mv = Ok b' ->
  Z.of_nat (length (route b')) = winSize b' ->
  find_solutions (S fuel) b show_solutions st
  = Some (Ok (report show_solutions (route b') (count_run st))).
Proof.
  intros Hms Happ Hwin. cbn [find_solutions]. rewrite Hms.
  cbn [length Nat.eqb for_moves]. rewrite Happ, Hwin, Z.eqb_refl. reflexivity.
Qed.

(** The search raises no [IndexError] on a board of the shape of [Board(n)]. *)
Lemma find_solutions_no_error (n : Z) (fuel : nat) (b : Board)
    (show_solutions : bool) (st : Stats) :
  shape n b -> find_solutions fuel b show_solutions st <> Some IndexError.
Proof.
  intros Hs Herr.
  destruct (find_solutions_total n (S (Nat.max fuel (pegs (holes b)))) b
              show_solutions st Hs) as [st' Hok]; [lia |].
  apply (find_solutions_mono fuel (S (Nat.max fuel (pegs (holes b))))) in Herr; [| lia].
  congruence.
Qed.

End Search.

(** * Building and replaying boards *)

Section Driver.

Lemma shape_Board_init (n : Z) : shape n (Board_init n).
Proof. repeat split. Qed.

Lemma remove_peg_shape (n : Z) (b b' : Board) (p : Z) :
  shape n b -> remove_peg b p = Ok b' -> shape n b' /\ route b' = route b.
Proof.
  intros (Hsz & Hnh & Hws & Hg) H. unfold remove_peg in H.
  destruct (set_peg (holes b) p false) as [hs |] eqn:Hset; [| discriminate].
  injection H as <-. apply set_peg_geometry in Hset.
  split; [| reflexivity]. unfold shape. cbn [size numHoles winSize holes].
  repeat split; try assumption. congruence.
Qed.

Lemma remove_pegs_shape (n : Z) (ps : list Z) :
  forall b b', shape n b -> remove_pegs b ps = Ok b' ->
               shape n b' /\ route b' = route b.
Proof.
  induction ps as [| p ps IH]; intros b b' Hs H; cbn [remove_pegs] in H.
  - injection H as <-. auto.
  - destruct (remove_peg b p) as [b1 |] eqn:H1; [| discriminate]. cbn [bind] in H.
    destruct (remove_peg_shape n b b1 p Hs H1) as [Hs1 Hr1].
    destruct (IH b1 b' Hs1 H) as [Hs' Hr']. split; [exact Hs' | congruence].
Qed.

Lemma createBoard_shape (n : Z) (ps : list Z) (b : Board) :
  createBoard n ps = Ok b -> shape n b /\ route b = [].
Proof. intros H. apply (remove_pegs_shape n ps (Board_init n)); [apply shape_Board_init | exact H]. Qed.

(** Emptying holes fails exactly on a subscript outside [-len, len). *)
Lemma remove_pegs_error (ps : list Z) :
  forall b, remove_pegs b ps = IndexError <->
            exists p, In p ps /\ ~ (- Z.of_nat (length (holes b)) <= p
                                    < Z.of_nat (length (holes b))).
Proof.
  induction ps as [| p ps IH]; intros b; cbn [remove_pegs].
  - split; [discriminate | intros (p & [] & _)].
  - unfold remove_peg at 1.
    destruct (set_peg (holes b) p false) as [hs |] eqn:Hset; cbn [bind].
    + rewrite IH. cbn [holes]. rewrite (set_peg_length _ _ _ _ Hset).
      assert (Hp : - Z.of_nat (length (holes b)) <= p < Z.of_nat (length (holes b))).
      { destruct (Z.le_gt_cases (- Z.of_nat (length (holes b))) p) as [H1|H1],
                 (Z.lt_ge_cases p (Z.of_nat (length (holes b)))) as [H2|H2];
          try (split; assumption);
          (assert (Herr : set_peg (holes b) p false = IndexError)
             by (apply set_peg_error; lia); congruence). }
      split.
      * intros (q & Hq & Hout). exists q. split; [now right | exact Hout].
      * intros (q & [-> | Hq] & Hout); [contradiction | eauto].
    + split; [| reflexivity]. intros _. exists p. split; [now left |].
      exact (proj1 (set_peg_error _ _ _) Hset).
Qed.

Lemma play_reached (mvs : list Move) :
  forall b b', play b mvs = Some b' -> reached b (length mvs) b'.
Proof.
  induction mvs as [| mv rest IH]; intros b b' H; cbn [play] in H.
  - injection H as <-. constructor.
  - destruct (valid_moves b) as [ms |] eqn:Hms; [| discriminate].
    destruct (existsb (Move_eqb mv) ms) eqn:Hex; [| discriminate].
    destruct (apply_move b mv) as [b1 |] eqn:Happ; [| discriminate].
    apply existsb_exists in Hex as (mv' & Hin & Heq).
    assert (mv' = mv).
    { destruct mv as [[o m] d], mv' as [[o' m'] d']. unfold Move_eqb in Heq.
      cbn [fst snd] in Heq. apply andb_true_iff in Heq as [Heq Hd].
      apply andb_true_iff in Heq as [Ho Hm].
      apply Z.eqb_eq in Ho, Hm, Hd. congruence. }
    subst mv'. cbn [length]. econstructor; eauto.
Qed.

(** Along the jumps of the search the shape is kept, the route grows by one
    pair a jump and the board loses one peg a jump. *)
Lemma reached_invariant (n : Z) (b : Board) (k : nat) (b' : Board) :
  reached b k b' -> shape n b ->
  shape n b' /\ length (route b') = (length (route b) + k)%nat
  /\ (pegs (holes b') + k = pegs (holes b))%nat.
Proof.
  induction 1 as [b | b ms [[o m] d] b1 k b' Hms Hin Happ _ IH]; intros Hs.
  - split; [exact Hs | split; lia].
  - rewrite (valid_moves_ok n b ms Hs Hms) in Hin.
    destruct (apply_move_valid n b o m d Hs Hin) as (b2 & Happ2 & Hs2 & Hr2 & Hp2).
    assert (b2 = b1) by congruence. subst b2.
    destruct (IH Hs2) as (Hs' & Hr' & Hp').
    rewrite Hr2, length_app in Hr'. cbn [length] in Hr'.
    split; [exact Hs' | split; lia].
Qed.

End Driver.

(** * Emptying holes *)

Section Emptying.

Lemma py_slot_value (len : nat) (p : Z) (k : nat) :
  py_slot len p = Ok k ->
  Z.of_nat k = p \/ Z.of_nat k = p + Z.of_nat len.
Proof.
  unfold py_slot.
  destruct (Z.leb_spec 0 p), (Z.ltb_spec p (Z.of_nat len)); cbn [andb];
    try (intros [= <-]; lia);
    destruct (Z.leb_spec (- Z.of_nat len) p), (Z.ltb_spec p 0); cbn [andb];
    try discriminate; intros [= <-]; lia.
Qed.

(** A hole keeps its peg through [remove_pegs] unless one of the subscripts
    designates it, from the front or from the end of the list. *)
Lemma remove_pegs_peg_at (ps : list Z) :
  forall b b' q,
    remove_pegs b ps = Ok b' -> 0 <= q < Z.of_nat (length (holes b)) ->
    peg_at (holes b') q
    = peg_at (holes b) q
      && negb (existsb (fun p => (p =? q) || (p + Z.of_nat (length (holes b)) =? q)) ps).
Proof.
  induction ps as [| p ps IH]; intros b b' q H Hq; cbn [remove_pegs existsb] in *.
  - injection H as <-. cbn. now rewrite andb_true_r.
  - unfold remove_peg in H.
    destruct (set_peg (holes b) p false) as [hs |] eqn:Hset; [| discriminate].
    cbn [bind] in H.
    pose proof (set_peg_length _ _ _ _ Hset) as Hlen.
    apply set_peg_inv in Hset as (k & h & Hslot & Hk & ->).
    rewrite (IH _ b' q H) by (cbn [holes]; lia).
    cbn [holes]. rewrite Hlen.
    rewrite peg_at_insert by (try eapply py_slot_lt; eauto; lia).
    pose proof (py_slot_value _ _ _ Hslot) as Hval.
    pose proof (py_slot_lt _ _ _ Hslot) as Hlt.
    destruct (decide (Z.to_nat q = k)) as [Heq | Hne].
    + assert (Hhit : (p =? q) || (p + Z.of_nat (length (holes b)) =? q) = true).
      { apply orb_true_iff. rewrite !Z.eqb_eq. lia. }
      rewrite Hhit. cbn. now rewrite andb_false_r.
    + assert (Hmiss : (p =? q) || (p + Z.of_nat (length (holes b)) =? q) = false).
      { apply orb_false_iff. rewrite !Z.eqb_neq. lia. }
      rewrite Hmiss. reflexivity.
Qed.

Lemma Board_init_all_pegs (n : Z) (h : Hole) :
  In h (holes (Board_init n)) -> has_peg h = true.
Proof.
  rewrite holes_Board_init, in_map_iff. intros (c & <- & _). reflexivity.
Qed.

End Emptying.

(** * The claims *)

(** C4. For all arguments, [Hole.__init__] stores the concatenation of what
    the three tests contribute (east and northeast when [offset - row < -1],
    west and northwest when [offset > 1], south-west and south-east when
    [n - row > 2]), each test on its own; the number of candidates is even
    and one of 0, 2, 4, 6. *)
Theorem Hole_init_candidates (n p row offset : Z) :
  moves (Hole_init n p row offset)
  = (if offset - row <? -1
     then [(p + 1, p + 2); (p - row, p - 2 * row + 1)] else [])
    ++ (if offset >? 1
        then [(p - 1, p - 2); (p - row - 1, p - 2 * row - 1)] else [])
    ++ (if n - row >? 2
        then [(p + row + 1, p + 2 * (row + 1) + 1);
              (p + row + 2, p + 2 * (row + 1) + 3)] else [])
  /\ Nat.Even (length (moves (Hole_init n p row offset)))
  /\ In (length (moves (Hole_init n p row offset))) [0; 2; 4; 6]%nat.
Proof.
  rewrite Hole_init_moves.
  unfold candidateMoves, east_eligible, west_eligible, south_eligible,
    east_candidates, west_candidates, south_candidates.
  split; [reflexivity |].
  destruct (offset - row <? -1), (offset >? 1), (n - row >? 2); cbn [length app];
    (split; [| cbn [In]; tauto]).
  - now exists 3%nat.
  - now exists 2%nat.
  - now exists 2%nat.
  - now exists 1%nat.
  - now exists 2%nat.
  - now exists 1%nat.
  - now exists 1%nat.
  - now exists 0%nat.
Qed.

(** C7. For a side [n >= 1] the constructor calls [Hole] with exactly the
    triples [(positionOf row offset, row, offset)] of the valid coordinates,
    row after row; the k-th hole has position k; [positionOf] is injective on
    the valid coordinates and onto [0, numHoles), with
    [numHoles = n * (n + 1) / 2]. *)
Theorem positionOf_bijection (n : Z) :
  1 <= n ->
  fst (hole_calls n) = coords_upto n
  /\ (forall k p r o, fst (hole_calls n) !! k = Some (p, r, o) ->
                      valid_coord n r o /\ p = positionOf r o /\ p = Z.of_nat k)
  /\ (forall r o, valid_coord n r o ->
                  fst (hole_calls n) !! Z.to_nat (positionOf r o)
                  = Some (positionOf r o, r, o))
  /\ (forall r o r' o', valid_coord n r o -> valid_coord n r' o' ->
                        positionOf r o = positionOf r' o' -> r = r' /\ o = o')
  /\ (forall r o, valid_coord n r o -> 0 <= positionOf r o < numHoles (Board_init n))
  /\ (forall p, 0 <= p < numHoles (Board_init n) ->
                exists r o, valid_coord n r o /\ positionOf r o = p)
  /\ map pos (holes (Board_init n)) = range (numHoles (Board_init n))
  /\ numHoles (Board_init n) = n * (n + 1) / 2.
Proof.
  intros Hn. rewrite hole_calls_spec. cbn [fst].
  assert (Hlen : length (coords_upto n) = Z.to_nat (positionOf n 0)).
  { rewrite <- (length_map (fun c => fst (fst c))), coords_upto_positions, range_length.
    now rewrite Z.max_l by lia. }
  assert (Hsurj : forall p, 0 <= p < positionOf n 0 ->
            exists r o, coords_upto n !! Z.to_nat p = Some (p, r, o)).
  { intros p Hp.
    destruct (lookup_lt_is_Some_2 (coords_upto n) (Z.to_nat p)) as [[[p' r] o] Hk];
      [lia |].
    destruct (coords_upto_lookup _ _ _ _ _ Hk) as (_ & Hp' & _).
    exists r, o. rewrite Hk. repeat f_equal. lia. }
  split; [reflexivity |]. split; [| split; [| split; [| split; [| split; [| split]]]]].
  - intros k p r o Hk. destruct (coords_upto_lookup _ _ _ _ _ Hk) as (Hv & Hp & Hpo). auto.
  - intros r o Hv. destruct (Hsurj (positionOf r o) (positionOf_bounds n r o Hv))
      as (r' & o' & Hk).
    destruct (coords_upto_lookup _ _ _ _ _ Hk) as (Hv' & _ & Hpo).
    destruct Hv as [Ho _], Hv' as [Ho' _].
    destruct (positionOf_inj r o r' o' Ho Ho' Hpo) as [<- <-]. exact Hk.
  - intros r o r' o' [Ho _] [Ho' _]. now apply positionOf_inj.
  - intros r o Hv. rewrite numHoles_Board_init. now apply positionOf_bounds.
  - intros p Hp. rewrite numHoles_Board_init in Hp.
    destruct (Hsurj p Hp) as (r & o & Hk).
    destruct (coords_upto_lookup _ _ _ _ _ Hk) as (Hv & _ & Hpo). eauto.
  - rewrite holes_Board_init, map_map. cbn [pos Hole_init].
    rewrite coords_upto_positions, numHoles_Board_init. now rewrite Z.max_l by lia.
  - rewrite numHoles_Board_init. unfold positionOf. lia.
Qed.

Lemma positionOf_bijection_witness :
  1 <= 5 /\ map pos (holes (Board_init 5)) = range (numHoles (Board_init 5)).
Proof.
  split; [lia |].
  destruct (positionOf_bijection 5) as (_ & _ & _ & _ & _ & _ & H & _); [lia | exact H].
Defined.

(** C3. On every board of the shape of [Board(n)], whatever its pegs,
    [valid_moves] returns the list of the specification: the holes in list
    order, which is ascending position order, and for each hole with a peg
    its candidates [(mid, dest)] with a peg on [mid] and none on [dest], in
    the stored order east, northeast, west, northwest, south-west,
    south-east; a triple is returned exactly when it is such a triple. *)
Theorem valid_moves_enumerates (n : Z) (b : Board) :
  shape n b ->
  valid_moves b = Ok (validMoves_spec b)
  /\ (forall o m d,
        In (o, m, d) (validMoves_spec b) <->
        exists h, 0 <= o /\ holes b !! Z.to_nat o = Some h /\ has_peg h = true
                  /\ In (m, d) (moves h)
                  /\ peg_at (holes b) m = true /\ peg_at (holes b) d = false)
  /\ (forall k h, holes b !! k = Some h ->
        pos h = Z.of_nat k
        /\ exists r o, valid_coord n r o /\ pos h = positionOf r o
             /\ moves h
                = (if east_eligible r o then east_candidates (pos h) r else [])
                  ++ (if west_eligible o then west_candidates (pos h) r else [])
                  ++ (if south_eligible n r then south_candidates (pos h) r else [])).
Proof.
  intros Hs. split; [now apply (valid_moves_shape n) |]. split.
  - intros o m d. rewrite In_validMoves_spec. split.
    + intros (k & h & Hk & Hpeg & -> & Hc & Hm & Hd).
      destruct (shape_lookup n b Hs k h Hk) as (_ & _ & _ & _ & Hpos & _).
      exists h. rewrite Hpos, Nat2Z.id. repeat split; auto. lia.
    + intros (h & Ho & Hk & Hpeg & Hc & Hm & Hd).
      destruct (shape_lookup n b Hs _ h Hk) as (_ & _ & _ & _ & Hpos & _).
      exists (Z.to_nat o), h. repeat split; auto. lia.
  - intros k h Hk.
    destruct (shape_lookup n b Hs k h Hk) as (r & o & Hv & Hp & Hpos & Hmv).
    split; [exact Hpos |]. exists r, o. rewrite Hpos.
    split; [exact Hv | split; [exact Hp | exact Hmv]].
Qed.

Lemma valid_moves_enumerates_witness :
  shape 5 main_board
  /\ valid_moves main_board = Ok [(3, 1, 0); (5, 2, 0)].
Proof.
  assert (Hs : shape 5 main_board) by (repeat split; reflexivity).
  split; [exact Hs |].
  destruct (valid_moves_enumerates 5 main_board Hs) as (H & _). exact H.
Defined.

(** C10. For a side [n >= 1] every stored candidate pair of every hole lies
    in [0, numHoles); on every board of that shape the list of holes has
    length [numHoles], [valid_moves] raises no [IndexError], each of its
    moves has origin, mid and dest in [0, numHoles) and is applied by the
    search without [IndexError]; the search raises none. *)
Theorem candidates_in_bounds (n : Z) :
  1 <= n ->
  (forall h m d, In h (holes (Board_init n)) -> In (m, d) (moves h) ->
                 0 <= m < numHoles (Board_init n)
                 /\ 0 <= d < numHoles (Board_init n))
  /\ (forall b, shape n b ->
        Z.of_nat (length (holes b)) = numHoles b
        /\ exists ms, valid_moves b = Ok ms
             /\ forall o m d, In (o, m, d) ms ->
                  (0 <= o < numHoles b /\ 0 <= m < numHoles b /\ 0 <= d < numHoles b)
                  /\ exists b', apply_move b (o, m, d) = Ok b' /\ shape n b')
  /\ (forall b fuel show_solutions st,
        shape n b -> find_solutions fuel b show_solutions st <> Some IndexError).
Proof.
  intros Hn. split; [| split].
  - intros h m d Hh Hc.
    apply list_elem_of_In, list_elem_of_lookup in Hh as [k Hk].
    destruct (shape_lookup n _ (shape_Board_init n) k h Hk)
      as (r & o & Hv & Hp & _ & Hmv).
    rewrite Hmv, Hp in Hc.
    destruct (candidate_on_board n r o m d Hv Hc) as (Hm & Hd & _).
    now rewrite numHoles_Board_init.
  - intros b Hs.
    assert (Hlen : Z.of_nat (length (holes b)) = numHoles b)
      by (apply (shape_numHoles n); [exact Hs | lia]).
    split; [exact Hlen |].
    exists (validMoves_spec b). split; [now apply (valid_moves_shape n) |].
    intros o m d Hin.
    destruct (valid_move_facts n b o m d Hs Hin) as (Ho & Hm & Hd & _).
    rewrite Hlen in Ho, Hm, Hd. split; [auto |].
    destruct (apply_move_valid n b o m d Hs Hin) as (b' & Happ & Hs' & _). eauto.
  - intros b fuel show_solutions st Hs. now apply (find_solutions_no_error n).
Qed.

Lemma candidates_in_bounds_witness :
  1 <= 5
  /\ find_solutions 3 main_board true stats0 <> Some IndexError.
Proof.
  split; [lia |].
  destruct (candidates_in_bounds 5) as (_ & _ & H); [lia |].
  apply H. repeat split; reflexivity.
Defined.

(** C5. Applying a move [(origin, mid, dest)] to a board where [origin] and
    [mid] hold pegs and [dest] is empty succeeds; afterwards the holes at
    [origin] and [mid] have no peg and the hole at [dest] has one, each with
    the position and candidates it had; the route is the old route followed
    by [(origin, dest)], one pair longer; the list of holes keeps its length
    and a subscript that designates any other hole reads what it read
    before. *)
Theorem apply_move_effect (b : Board) (origin mid dest : Z) (ho hm hd : Hole) :
  py_get (holes b) origin = Ok ho -> has_peg ho = true ->
  py_get (holes b) mid = Ok hm -> has_peg hm = true ->
  py_get (holes b) dest = Ok hd -> has_peg hd = false ->
  exists b' ho' hm' hd',
    apply_move b (origin, mid, dest) = Ok b'
    /\ (py_get (holes b') origin = Ok ho' /\ has_peg ho' = false
        /\ pos ho' = pos ho /\ moves ho' = moves ho)
    /\ (py_get (holes b') mid = Ok hm' /\ has_peg hm' = false
        /\ pos hm' = pos hm /\ moves hm' = moves hm)
    /\ (py_get (holes b') dest = Ok hd' /\ has_peg hd' = true
        /\ pos hd' = pos hd /\ moves hd' = moves hd)
    /\ route b' = route b ++ [(origin, dest)]
    /\ length (route b') = S (length (route b))
    /\ length (holes b') = length (holes b)
    /\ (forall i,
          py_slot (length (holes b)) i <> py_slot (length (holes b)) origin ->
          py_slot (length (holes b)) i <> py_slot (length (holes b)) mid ->
          py_slot (length (holes b)) i <> py_slot (length (holes b)) dest ->
          py_get (holes b') i = py_get (holes b) i).
Proof.
  intros Hgo Hpo Hgm Hpm Hgd Hpd.
  apply py_get_inv in Hgo as (ko & Hso & Hko).
  apply py_get_inv in Hgm as (km & Hsm & Hkm).
  apply py_get_inv in Hgd as (kd & Hsd & Hkd).
  assert (Hdo : kd <> ko) by (intros ->; congruence).
  assert (Hdm : kd <> km) by (intros ->; congruence).
  pose proof (py_slot_lt _ _ _ Hso) as Hlo.
  pose proof (py_slot_lt _ _ _ Hsm) as Hlm.
  pose proof (py_slot_lt _ _ _ Hsd) as Hld.
  eexists. exists (set_has_peg ho false), (set_has_peg hm false), (set_has_peg hd true).
  split; [eapply apply_move_slots; eassumption |].
  cbn [holes route].
  assert (Hlen : length (<[kd := set_has_peg hd true]>
                   (<[km := set_has_peg hm false]>
                      (<[ko := set_has_peg ho false]> (holes b))))
                 = length (holes b)) by now rewrite !length_insert.
  split; [| split; [| split; [| split; [| split; [| split]]]]].
  - split; [| repeat split].
    apply (py_get_slot _ _ ko); [now rewrite Hlen |].
    rewrite list_lookup_insert_ne by congruence.
    destruct (decide (km = ko)) as [-> | Hne].
    + rewrite list_lookup_insert_eq by now rewrite length_insert.
      assert (hm = ho) by congruence. now subst hm.
    + rewrite list_lookup_insert_ne by congruence.
      now rewrite list_lookup_insert_eq.
  - split; [| repeat split].
    apply (py_get_slot _ _ km); [now rewrite Hlen |].
    rewrite list_lookup_insert_ne by congruence.
    now rewrite list_lookup_insert_eq by now rewrite length_insert.
  - split; [| repeat split].
    apply (py_get_slot _ _ kd); [now rewrite Hlen |].
    now rewrite list_lookup_insert_eq by now rewrite !length_insert.
  - reflexivity.
  - rewrite length_app. cbn [length]. lia.
  - exact Hlen.
  - intros i Hio Him Hid. unfold py_get. rewrite Hlen.
    destruct (py_slot (length (holes b)) i) as [k |] eqn:Hsi; [| reflexivity].
    cbn [bind]. now rewrite !list_lookup_insert_ne by congruence.
Qed.

Lemma apply_move_effect_witness :
  exists b' h3 h1 h0,
    apply_move main_board (3, 1, 0) = Ok b'
    /\ (py_get (holes b') 3 = Ok h3 /\ has_peg h3 = false)
    /\ (py_get (holes b') 1 = Ok h1 /\ has_peg h1 = false)
    /\ (py_get (holes b') 0 = Ok h0 /\ has_peg h0 = true)
    /\ route b' = route main_board ++ [(3, 0)].
Proof.
  destruct (apply_move_effect main_board 3 1 0
              (Hole_init 5 3 2 0) (Hole_init 5 1 1 0)
              (set_has_peg (Hole_init 5 0 0 0) false))
    as (b' & h3 & h1 & h0 & Happ & (G3 & P3 & _) & (G1 & P1 & _) & (G0 & P0 & _)
        & Hroute & _);
    [vm_compute; reflexivity .. |].
  exists b', h3, h1, h0. auto 10.
Defined.

(** C2. From a board of the shape of [Board(n)] with an empty route and
    [numHoles - 1] pegs, every state reached by [k] jumps of the search has a
    route of length [k]; when that length is [winSize = numHoles - 2] exactly
    one peg remains. *)
Theorem route_counts_jumps (n : Z) (b0 b : Board) (k : nat) :
  shape n b0 -> route b0 = [] ->
  Z.of_nat (pegs (holes b0)) = numHoles b0 - 1 ->
  reached b0 k b ->
  length (route b) = k
  /\ winSize b = numHoles b - 2
  /\ (Z.of_nat (length (route b)) = winSize b -> pegs (holes b) = 1%nat).
Proof.
  intros Hs Hr0 Hp0 Hreach.
  destruct (reached_invariant n b0 k b Hreach Hs) as (Hs' & Hlen & Hpegs).
  rewrite Hr0 in Hlen. cbn [length] in Hlen.
  assert (Hnh : numHoles b = numHoles b0)
    by (destruct Hs as (_ & -> & _), Hs' as (_ & -> & _); reflexivity).
  assert (Hws : winSize b = numHoles b - 2)
    by (destruct Hs' as (_ & -> & -> & _); reflexivity).
  split; [lia | split; [exact Hws |]]. lia.
Qed.

Lemma route_counts_jumps_witness :
  length (route won_board) = 13%nat /\ pegs (holes won_board) = 1%nat.
Proof.
  destruct (route_counts_jumps 5 main_board won_board 13) as (Hlen & _ & Hone).
  - repeat split; vm_compute; reflexivity.
  - vm_compute; reflexivity.
  - vm_compute; reflexivity.
  - apply (play_reached (twelve_jumps ++ [(1, 3, 6)])). vm_compute; reflexivity.
  - split; [exact Hlen | apply Hone; vm_compute; reflexivity].
Defined.

(** C6. On every board of the shape of [Board(n)], whatever its pegs and its
    route, [find_solutions] returns, without an exception: a recursion depth
    above the number of pegs is enough, and so is one of at least
    [winSize - len(route)] when the route is shorter than [winSize], the
    route growing by one pair at each recursive call. *)
Theorem find_solutions_terminates (n : Z) (b : Board) (show_solutions : bool)
    (st : Stats) :
  shape n b ->
  exists st',
    (forall fuel, (pegs (holes b) < fuel)%nat ->
                  find_solutions fuel b show_solutions st = Some (Ok st'))
    /\ (forall fuel,
          0 < winSize b - Z.of_nat (length (route b)) <= Z.of_nat fuel ->
          find_solutions fuel b show_solutions st = Some (Ok st')).
Proof.
  intros Hs.
  destruct (find_solutions_total n (S (pegs (holes b))) b show_solutions st Hs)
    as [st' Hst']; [lia |].
  exists st'. split.
  - intros fuel Hfuel. apply (find_solutions_mono (S (pegs (holes b)))); [lia | exact Hst'].
  - intros fuel Hfuel.
    destruct (find_solutions_total_route n fuel b show_solutions st Hs Hfuel)
      as [st2 Hst2].
    pose proof (find_solutions_mono _ (Nat.max fuel (S (pegs (holes b)))) _ _ _ _
                  (Nat.le_max_l _ _) Hst2) as H2.
    pose proof (find_solutions_mono _ (Nat.max fuel (S (pegs (holes b)))) _ _ _ _
                  (Nat.le_max_r _ _) Hst') as H1.
    congruence.
Qed.

Lemma find_solutions_terminates_witness :
  exists st', find_solutions 10 (board_of 4 [1]) true stats0 = Some (Ok st').
Proof.
  destruct (find_solutions_terminates 4 (board_of 4 [1]) true stats0) as (st' & H & _).
  - repeat split; vm_compute; reflexivity.
  - exists st'. apply H. vm_compute. lia.
Defined.

(** C9. On a board of side 1 (one hole, [numHoles = 1], [winSize = -1]),
    with or without its peg, [find_solutions] returns normally after one run:
    no solution is counted, nothing is printed, no exception is raised. *)
Theorem find_solutions_side_one (b : Board) (show_solutions : bool) (st : Stats)
    (fuel : nat) :
  shape 1 b ->
  numHoles b = 1 /\ winSize b = -1 /\ length (holes b) = 1%nat
  /\ find_solutions (S fuel) b show_solutions st = Some (Ok (count_run st))
  /\ num_of_solutions (count_run st) = num_of_solutions st
  /\ printed (count_run st) = printed st.
Proof.
  intros Hs. pose proof Hs as (_ & Hnh & Hws & Hg).
  split; [exact Hnh | split; [exact Hws |]].
  assert (Hh : exists h, holes b = [h] /\ moves h = []).
  { assert (Hg1 : map geometry (holes (Board_init 1)) = [(0, [])]) by reflexivity.
    rewrite Hg1 in Hg.
    destruct (holes b) as [| h [| h' hs]]; try discriminate.
    exists h. split; [reflexivity |].
    unfold geometry in Hg. cbn [map] in Hg. congruence. }
  destruct Hh as (h & Hh & Hmv).
  split; [now rewrite Hh |]. split; [| split; reflexivity].
  cbn [find_solutions]. rewrite (valid_moves_shape 1 b Hs).
  unfold validMoves_spec, moves_from. rewrite Hh. cbn [flat_map]. rewrite Hmv.
  destruct (has_peg h); reflexivity.
Qed.

Lemma find_solutions_side_one_witness :
  find_solutions 1 (board_of 1 [0]) true stats0 = Some (Ok (count_run stats0)).
Proof.
  destruct (find_solutions_side_one (board_of 1 [0]) true stats0 0) as (_ & _ & _ & H & _).
  - repeat split; vm_compute; reflexivity.
  - exact H.
Defined.

(** C8, as the code has it. The source has no [createBoard]: the driver
    builds [Board(n)] and empties a position [p] with
    [holes[p].has_peg = False].  Done for a list of positions, this fails,
    with the [IndexError] of the subscript, exactly when some position is
    outside [-len(holes), len(holes)), where [len(holes)] is [numHoles] for
    [n >= 0] and 0 for [n < 0].  On a board that was built, a position
    [p >= 0] has emptied hole [p], a position [p < 0] has emptied hole
    [len(holes) + p], every other hole has kept its peg, and the search
    raises no [IndexError]. *)
Theorem createBoard_error (n : Z) (ps : list Z) :
  Z.of_nat (length (holes (Board_init n)))
  = (if 0 <=? n then numHoles (Board_init n) else 0)
  /\ (createBoard n ps = IndexError <->
      exists p, In p ps
                /\ ~ (- Z.of_nat (length (holes (Board_init n))) <= p
                      < Z.of_nat (length (holes (Board_init n)))))
  /\ (forall b, createBoard n ps = Ok b ->
        (forall p, In p ps -> 0 <= p -> peg_at (holes b) p = false)
        /\ (forall p, In p ps -> p < 0 ->
              peg_at (holes b) (Z.of_nat (length (holes (Board_init n))) + p) = false)
        /\ (forall q, 0 <= q < Z.of_nat (length (holes (Board_init n))) ->
              (forall p, In p ps ->
                         p <> q /\ Z.of_nat (length (holes (Board_init n))) + p <> q) ->
              peg_at (holes b) q = true)
        /\ (forall fuel show_solutions st,
              find_solutions fuel b show_solutions st <> Some IndexError)).
Proof.
  split; [| split].
  - rewrite length_holes_Board_init, numHoles_Board_init.
    destruct (Z.leb_spec 0 n).
    + now rewrite Z.max_l by lia.
    + now rewrite Z.max_r by lia.
  - unfold createBoard. apply remove_pegs_error.
  - intros b Hb.
    assert (Hin : forall p, In p ps ->
              - Z.of_nat (length (holes (Board_init n))) <= p
              < Z.of_nat (length (holes (Board_init n)))).
    { intros p Hp.
      destruct (Z.le_gt_cases (- Z.of_nat (length (holes (Board_init n)))) p) as [H1 | H1],
               (Z.lt_ge_cases p (Z.of_nat (length (holes (Board_init n))))) as [H2 | H2];
        try (split; assumption);
        (assert (Herr : createBoard n ps = IndexError)
           by (apply remove_pegs_error; exists p; split; [exact Hp | lia]);
         congruence). }
    assert (Hpeg : forall q, 0 <= q < Z.of_nat (length (holes (Board_init n))) ->
              peg_at (holes b) q
              = negb (existsb (fun p => (p =? q)
                                        || (p + Z.of_nat (length (holes (Board_init n)))
                                            =? q)) ps)).
    { intros q Hq. unfold createBoard in Hb.
      rewrite (remove_pegs_peg_at ps _ b q Hb Hq).
      replace (peg_at (holes (Board_init n)) q) with true; [reflexivity |].
      destruct (peg_at_lookup (holes (Board_init n)) q Hq) as (h & Hk & <-).
      symmetry. apply (Board_init_all_pegs n).
      apply list_elem_of_In, list_elem_of_lookup. eauto. }
    split; [| split; [| split]].
    + intros p Hp Hp0. pose proof (Hin p Hp). rewrite Hpeg by lia.
      apply negb_false_iff, existsb_exists. exists p. split; [exact Hp |].
      now rewrite Z.eqb_refl.
    + intros p Hp Hp0. pose proof (Hin p Hp). rewrite Hpeg by lia.
      apply negb_false_iff, existsb_exists. exists p. split; [exact Hp |].
      apply orb_true_iff. right. apply Z.eqb_eq. lia.
    + intros q Hq Hmiss. rewrite Hpeg by exact Hq.
      apply negb_true_iff. apply not_true_is_false. intros Hex.
      apply existsb_exists in Hex as (p & Hp & Hhit).
      destruct (Hmiss p Hp) as [H1 H2].
      apply orb_true_iff in Hhit as [Hhit | Hhit]; apply Z.eqb_eq in Hhit; lia.
    + intros fuel show_solutions st.
      apply (find_solutions_no_error n). now apply (createBoard_shape n ps).
Qed.

Lemma createBoard_error_witness :
  createBoard 5 [0; 15] = IndexError
  /\ peg_at (holes (board_of 5 [0; -1])) 0 = false
  /\ peg_at (holes (board_of 5 [0; -1])) 14 = false
  /\ peg_at (holes (board_of 5 [0; -1])) 7 = true.
Proof.
  split.
  - destruct (createBoard_error 5 [0; 15]) as (_ & (_ & H) & _).
    apply H. exists 15. split; [cbn [In]; tauto | vm_compute; intuition congruence].
  - destruct (createBoard_error 5 [0; -1]) as (_ & _ & H).
    destruct (H (board_of 5 [0; -1])) as (H0 & H1 & H2 & _); [vm_compute; reflexivity |].
    split; [apply H0; [cbn [In]; tauto | lia] |].
    split; [apply (H1 (-1)); [cbn [In]; tauto | lia] |].
    apply H2; [vm_compute; split; [discriminate | reflexivity] |].
    intros p [<- | [<- | []]]; vm_compute; split; discriminate.
Defined.

(** C8, as stated, fails: position -1 is outside [0, numHoles) and the board
    of side 5 is built all the same, with its last hole emptied. *)
Lemma createBoard_accepts_negative :
  ~ (createBoard 5 [-1] = IndexError <->
     exists p, In p [-1] /\ ~ (0 <= p < numHoles (Board_init 5))).
Proof.
  intros [_ H].
  assert (Herr : createBoard 5 [-1] = IndexError).
  { apply H. exists (-1). split; [now left | lia]. }
  vm_compute in Herr. discriminate.
Qed.

(** C1. The search does not process every move: it returns at the first win
    of a node.  After [twelve_jumps] from the board of [__main__] the
    enumerator returns two moves, both of them wins that leave one peg; the
    search reports the first and returns, where the search of the
    specification reports both. *)
Theorem find_solutions_returns_at_first_win :
  exists node,
    play main_board twelve_jumps = Some node
    /\ valid_moves node = Ok [(1, 3, 6); (3, 1, 0)]
    /\ (exists w1 w2,
          apply_move node (1, 3, 6) = Ok w1 /\ apply_move node (3, 1, 0) = Ok w2
          /\ Z.of_nat (length (route w1)) = winSize w1
          /\ Z.of_nat (length (route w2)) = winSize w2
          /\ pegs (holes w1) = 1%nat /\ pegs (holes w2) = 1%nat)
    /\ find_solutions 15 node true stats0
       = Some (Ok {| num_of_solutions := 1; num_of_function_runs := 1;
                     printed := [twelve_routes ++ [(1, 6)]] |})
    /\ spec_search 15 node stats0
       = Some (Ok {| num_of_solutions := 2; num_of_function_runs := 1;
                     printed := [twelve_routes ++ [(1, 6)];
                                 twelve_routes ++ [(3, 0)]] |}).
Proof.
  eexists. split; [vm_compute; reflexivity |].
  split; [vm_compute; reflexivity |].
  split; [| split; vm_compute; reflexivity].
  eexists. eexists.
  split; [vm_compute; reflexivity |]. split; [vm_compute; reflexivity |].
  repeat split; vm_compute; reflexivity.
Qed.

(** * Further properties of the geometry *)

Section Jumps.

Lemma positionOf_step (r o dr do : Z) :
  2 * positionOf (r + dr) (o + do)
  = 2 * positionOf r o + dr * (2 * r + dr + 1) + 2 * do.
Proof. rewrite !positionOf_double. ring. Qed.

Lemma positionOf_same_row (r o k : Z) : positionOf r (o + k) = positionOf r o + k.
Proof. unfold positionOf. lia. Qed.

Lemma jump_from_east (r o : Z) :
  jump_from r o (0, 1) = (positionOf r o + 1, positionOf r o + 2).
Proof.
  unfold jump_from. cbn [fst snd].
  rewrite !Z.mul_0_r, !Z.add_0_r, !positionOf_same_row. reflexivity.
Qed.

Lemma jump_from_west (r o : Z) :
  jump_from r o (0, -1) = (positionOf r o - 1, positionOf r o - 2).
Proof.
  unfold jump_from. cbn [fst snd].
  rewrite !Z.mul_0_r, !Z.add_0_r, !positionOf_same_row. reflexivity.
Qed.

Lemma jump_from_northeast (r o : Z) :
  jump_from r o (-1, 0)
  = (positionOf r o - r, positionOf r o - 2 * r + 1).
Proof.
  unfold jump_from. cbn [fst snd]. rewrite !Z.mul_0_r.
  pose proof (positionOf_step r o (-1) 0). pose proof (positionOf_step r o (2 * -1) 0).
  f_equal; lia.
Qed.

Lemma jump_from_northwest (r o : Z) :
  jump_from r o (-1, -1)
  = (positionOf r o - r - 1, positionOf r o - 2 * r - 1).
Proof.
  unfold jump_from. cbn [fst snd].
  pose proof (positionOf_step r o (-1) (-1)).
  pose proof (positionOf_step r o (2 * -1) (2 * -1)).
  f_equal; lia.
Qed.

Lemma jump_from_southwest (r o : Z) :
  jump_from r o (1, 0)
  = (positionOf r o + r + 1, positionOf r o + 2 * (r + 1) + 1).
Proof.
  unfold jump_from. cbn [fst snd]. rewrite !Z.mul_0_r.
  pose proof (positionOf_step r o 1 0). pose proof (positionOf_step r o (2 * 1) 0).
  f_equal; lia.
Qed.

Lemma jump_from_southeast (r o : Z) :
  jump_from r o (1, 1)
  = (positionOf r o + r + 2, positionOf r o + 2 * (r + 1) + 3).
Proof.
  unfold jump_from. cbn [fst snd].
  pose proof (positionOf_step r o 1 1). pose proof (positionOf_step r o (2 * 1) (2 * 1)).
  f_equal; lia.
Qed.

(** On the board, a direction lands on the board exactly when the test of
    [Hole.__init__] for it holds. *)
Lemma lands_east (n r o : Z) :
  valid_coord n r o ->
  lands_on_board n r o (0, 1) = east_eligible r o
  /\ lands_on_board n r o (-1, 0) = east_eligible r o.
Proof.
  intros [Ho Hr]. unfold lands_on_board, east_eligible. cbn [fst snd].
  destruct (Z.ltb_spec (o - r) (-1));
    split;
    repeat match goal with
      | |- context [?a <=? ?b] => destruct (Z.leb_spec a b); try lia
      | |- context [?a <? ?b] => destruct (Z.ltb_spec a b); try lia
      end; reflexivity.
Qed.

Lemma lands_west (n r o : Z) :
  valid_coord n r o ->
  lands_on_board n r o (0, -1) = west_eligible o
  /\ lands_on_board n r o (-1, -1) = west_eligible o.
Proof.
  intros [Ho Hr]. unfold lands_on_board, west_eligible. cbn [fst snd].
  destruct (Z.gtb_spec o 1);
    split;
    repeat match goal with
      | |- context [?a <=? ?b] => destruct (Z.leb_spec a b); try lia
      | |- context [?a <? ?b] => destruct (Z.ltb_spec a b); try lia
      end; reflexivity.
Qed.

Lemma lands_south (n r o : Z) :
  valid_coord n r o ->
  lands_on_board n r o (1, 0) = south_eligible n r
  /\ lands_on_board n r o (1, 1) = south_eligible n r.
Proof.
  intros [Ho Hr]. unfold lands_on_board, south_eligible. cbn [fst snd].
  destruct (Z.gtb_spec (n - r) 2);
    split;
    repeat match goal with
      | |- context [?a <=? ?b] => destruct (Z.leb_spec a b); try lia
      | |- context [?a <? ?b] => destruct (Z.ltb_spec a b); try lia
      end; reflexivity.
Qed.

(** The stored candidates of a hole are the jumps in the six directions that
    land on the board, in that order. *)
Lemma candidateMoves_directions (n r o : Z) :
  valid_coord n r o ->
  candidateMoves n (positionOf r o) r o
  = map (jump_from r o) (List.filter (lands_on_board n r o) directions).
Proof.
  intros Hv.
  destruct (lands_east n r o Hv) as [E1 E2].
  destruct (lands_west n r o Hv) as [W1 W2].
  destruct (lands_south n r o Hv) as [S1 S2].
  unfold candidateMoves, east_candidates, west_candidates, south_candidates, directions.
  cbn [List.filter]. rewrite E1, E2, W1, W2, S1, S2.
  destruct (east_eligible r o), (west_eligible o), (south_eligible n r);
    cbn [map app];
    rewrite ?jump_from_east, ?jump_from_northeast, ?jump_from_west,
      ?jump_from_northwest, ?jump_from_southwest, ?jump_from_southeast;
    reflexivity.
Qed.

(** The jump back: from the landing hole, the opposite direction lands on the
    starting hole over the same middle hole. *)
Lemma reverse_jump (n r o : Z) (dir : Z * Z) :
  valid_coord n r o -> In dir directions -> lands_on_board n r o dir = true ->
  valid_coord n (r + 2 * fst dir) (o + 2 * snd dir)
  /\ In (- fst dir, - snd dir) directions
  /\ lands_on_board n (r + 2 * fst dir) (o + 2 * snd dir) (- fst dir, - snd dir) = true
  /\ jump_from (r + 2 * fst dir) (o + 2 * snd dir) (- fst dir, - snd dir)
     = (fst (jump_from r o dir), positionOf r o).
Proof.
  intros [Ho Hr] Hdir Hland. unfold lands_on_board in Hland.
  apply andb_true_iff in Hland as [Hland H3]. apply andb_true_iff in Hland as [H1 H2].
  apply Z.leb_le in H1, H2. apply Z.ltb_lt in H3.
  unfold valid_coord, lands_on_board, jump_from.
  cbn [In directions] in Hdir.
  destruct Hdir as [<- | [<- | [<- | [<- | [<- | [<- | []]]]]]];
    cbn [fst snd] in *;
    (split; [lia |]); (split; [cbn [In directions]; tauto |]);
    (split; [rewrite !andb_true_iff, !Z.leb_le, Z.ltb_lt; lia |]);
    f_equal; f_equal; lia.
Qed.

End Jumps.

Section MoreShape.

Lemma pegs_le_length (hs : list Hole) : (pegs hs <= length hs)%nat.
Proof.
  unfold pegs. induction hs as [| h hs IH]; cbn [List.filter length]; [lia |].
  destruct (has_peg h); cbn [length]; lia.
Qed.

Lemma pegs_with_peg (hs : list Hole) (k : nat) (h : Hole) :
  hs !! k = Some h -> has_peg h = true -> (1 <= pegs hs)%nat.
Proof.
  intros Hk Hp. pose proof (pegs_insert hs k h (set_has_peg h false) Hk) as H.
  rewrite Hp in H. cbn [has_peg set_has_peg Nat.b2n] in H. lia.
Qed.

Lemma pegs_with_gap (hs : list Hole) (k : nat) (h : Hole) :
  hs !! k = Some h -> has_peg h = false -> (pegs hs < length hs)%nat.
Proof.
  intros Hk Hp. pose proof (pegs_insert hs k h (set_has_peg h true) Hk) as H.
  rewrite Hp in H. cbn [has_peg set_has_peg Nat.b2n] in H.
  pose proof (pegs_le_length (<[k := set_has_peg h true]> hs)) as Hle.
  rewrite length_insert in Hle. lia.
Qed.

(** A board that has a move has two pegs at least and a gap. *)
Lemma move_needs_pegs (n : Z) (b : Board) (mv : Move) :
  shape n b -> In mv (validMoves_spec b) ->
  (2 <= pegs (holes b) < length (holes b))%nat.
Proof.
  intros Hs Hin. destruct mv as [[o m] d].
  destruct (valid_move_facts n b o m d Hs Hin)
    as (Ho & Hm & Hd & Hom & Hod & Hmd & Hpo & Hpm & Hpd).
  destruct (peg_at_lookup _ _ Hd) as (hd & Hkd & Hhd). rewrite Hpd in Hhd.
  split; [| eapply pegs_with_gap; eauto].
  destruct (apply_move_valid n b o m d Hs Hin) as (b' & Happ & Hs' & _ & Hpegs).
  destruct (peg_at_lookup _ _ Ho) as (ho & Hko & Hho). rewrite Hpo in Hho.
  destruct (peg_at_lookup _ _ Hm) as (hm & Hkm & Hhm). rewrite Hpm in Hhm.
  assert (Hne1 : Z.to_nat d <> Z.to_nat o) by lia.
  assert (Hne2 : Z.to_nat d <> Z.to_nat m) by lia.
  rewrite (apply_move_slots b o m d (Z.to_nat o) (Z.to_nat m) (Z.to_nat d) ho hm hd)
    in Happ by (try apply py_slot_in_range; assumption).
  injection Happ as <-. cbn [holes] in Hpegs.
  assert (1 <= pegs (<[Z.to_nat d := set_has_peg hd true]>
                     (<[Z.to_nat m := set_has_peg hm false]>
                        (<[Z.to_nat o := set_has_peg ho false]> (holes b)))))%nat.
  { apply (pegs_with_peg _ (Z.to_nat d) (set_has_peg hd true)); [| reflexivity].
    apply list_lookup_insert_eq. rewrite !length_insert. lia. }
  lia.
Qed.

(** Without a stored candidate there is no move, whatever the pegs. *)
Lemma no_candidates_no_moves (b : Board) :
  Forall (fun h => moves h = []) (holes b) -> validMoves_spec b = [].
Proof.
  unfold validMoves_spec. generalize (holes b) at 2 as hs. intros hs.
  induction 1 as [| h rest Hh _ IH]; cbn [flat_map]; [reflexivity |].
  unfold moves_from at 1. rewrite Hh, IH. now destruct (has_peg h).
Qed.

Lemma find_solutions_no_moves (n : Z) (b : Board) (fuel : nat)
    (show_solutions : bool) (st : Stats) :
  shape n b -> validMoves_spec b = [] ->
  find_solutions (S fuel) b show_solutions st = Some (Ok (count_run st)).
Proof.
  intros Hs Hnil. cbn [find_solutions]. rewrite (valid_moves_shape n b Hs), Hnil.
  reflexivity.
Qed.

Lemma small_side_no_candidates (n r o : Z) (p : Z) :
  n <= 2 -> valid_coord n r o -> candidateMoves n p r o = [].
Proof.
  intros Hn [Ho Hr]. unfold candidateMoves, east_eligible, west_eligible, south_eligible.
  destruct (Z.ltb_spec (o - r) (-1)); [lia |].
  destruct (Z.gtb_spec o 1); [lia |].
  destruct (Z.gtb_spec (n - r) 2); [lia | reflexivity].
Qed.

End MoreShape.

(** * Further properties of the search *)

Section Counters.

Lemma apply_move_fields (b b' : Board) (o m d : Z) :
  apply_move b (o, m, d) = Ok b' ->
  route b' = route b ++ [(o, d)] /\ winSize b' = winSize b
  /\ numHoles b' = numHoles b /\ size b' = size b.
Proof.
  unfold apply_move.
  destruct (set_peg (holes b) o false) as [hs1 |]; [| discriminate]. cbn [bind].
  destruct (set_peg hs1 m false) as [hs2 |]; [| discriminate]. cbn [bind].
  destruct (set_peg hs2 d true) as [hs3 |]; [| discriminate]. cbn [bind].
  intros [= <-]. auto.
Qed.

Lemma apply_move_win (b b' : Board) (mv : Move) :
  apply_move b mv = Ok b' ->
  (Z.of_nat (length (route b')) =? winSize b')
  = (Z.of_nat (length (route b)) + 1 =? winSize b).
Proof.
  destruct mv as [[o m] d]. intros H.
  destruct (apply_move_fields b b' o m d H) as (-> & -> & _).
  rewrite length_app. cbn [length]. f_equal. lia.
Qed.

Lemma accumulate_assoc (a d e : Stats) :
  accumulate (accumulate a d) e = accumulate a (accumulate d e).
Proof.
  unfold accumulate. cbn. f_equal; [lia | lia | now rewrite app_assoc].
Qed.

Lemma accumulate_stats0 (st : Stats) : accumulate st stats0 = st.
Proof.
  destruct st as [s r p]. unfold accumulate, stats0. cbn.
  f_equal; [lia | lia | apply app_nil_r].
Qed.

Lemma count_run_accumulate (a d : Stats) :
  count_run (accumulate a d) = accumulate a (count_run d).
Proof. unfold count_run, accumulate. cbn. f_equal. lia. Qed.

Lemma report_accumulate (show_solutions : bool) (r : list (Z * Z)) (a d : Stats) :
  report show_solutions r (accumulate a d) = accumulate a (report show_solutions r d).
Proof.
  unfold report, accumulate. cbn. f_equal; [lia |].
  destruct show_solutions; [now rewrite app_assoc | reflexivity].
Qed.

Lemma for_moves_accumulate (rec : Board -> Stats -> option (result Stats))
    (b : Board) (show_solutions : bool) (a : Stats) (todo : list Move) :
  (forall b' d, rec b' (accumulate a d) = on_result (accumulate a) (rec b' d)) ->
  forall d, for_moves rec b show_solutions todo (accumulate a d)
            = on_result (accumulate a) (for_moves rec b show_solutions todo d).
Proof.
  intros Hrec. induction todo as [| mv rest IH]; intros d; cbn [for_moves].
  - reflexivity.
  - destruct (apply_move b mv) as [b' |]; [| reflexivity].
    destruct (Z.of_nat (length (route b')) =? winSize b').
    + cbn [on_result]. now rewrite report_accumulate.
    + rewrite Hrec. destruct (rec b' d) as [[d1 |] |]; cbn [on_result];
        [apply IH | reflexivity | reflexivity].
Qed.

Lemma find_solutions_accumulate (fuel : nat) :
  forall (b : Board) (show_solutions : bool) (a d : Stats),
    find_solutions fuel b show_solutions (accumulate a d)
    = on_result (accumulate a) (find_solutions fuel b show_solutions d).
Proof.
  induction fuel as [| fuel IH]; intros b show_solutions a d; [reflexivity |].
  cbn [find_solutions].
  destruct (valid_moves b) as [ms |]; [| reflexivity].
  rewrite count_run_accumulate.
  destruct (length ms =? 0)%nat; [reflexivity |].
  apply for_moves_accumulate. intros b' d'. apply IH.
Qed.

(** Below the last jump [show_solutions] is not consulted. *)
Lemma for_moves_show (rec : Board -> Stats -> option (result Stats)) (b : Board)
    (s1 s2 : bool) (todo : list Move) :
  Z.of_nat (length (route b)) + 1 <> winSize b ->
  forall st, for_moves rec b s1 todo st = for_moves rec b s2 todo st.
Proof.
  intros Hne. induction todo as [| mv rest IH]; intros st; cbn [for_moves]; [reflexivity |].
  destruct (apply_move b mv) as [b' |] eqn:Happ; [| reflexivity].
  rewrite (apply_move_win b b' mv Happ).
  destruct (Z.eqb_spec (Z.of_nat (length (route b)) + 1) (winSize b)); [contradiction |].
  destruct (rec b' st) as [[st1 |] |]; [apply IH | reflexivity | reflexivity].
Qed.

End Counters.

Section Soundness.

Lemma for_moves_sound (rec : Board -> Stats -> option (result Stats)) (b : Board)
    (show_solutions : bool) (ms todo : list Move) :
  valid_moves b = Ok ms -> (forall mv, In mv todo -> In mv ms) ->
  (forall b' st st', rec b' st = Some (Ok st') ->
     exists wins,
       num_of_solutions st' = num_of_solutions st + Z.of_nat (length wins)
       /\ Forall (is_win b') wins
       /\ printed st' = printed st ++ map route wins
       /\ num_of_function_runs st <= num_of_function_runs st') ->
  forall st st', for_moves rec b show_solutions todo st = Some (Ok st') ->
    exists wins,
      num_of_solutions st' = num_of_solutions st + Z.of_nat (length wins)
      /\ Forall (is_win b) wins
      /\ (show_solutions = true -> printed st' = printed st ++ map route wins)
      /\ num_of_function_runs st <= num_of_function_runs st'
      /\ (wins = [] -> printed st' = printed st).
Proof.
  intros Hms Hsub Hrec.
  induction todo as [| mv rest IH]; intros st st' H; cbn [for_moves] in H.
  - injection H as <-. exists []. cbn. rewrite app_nil_r.
    repeat split; [lia | constructor | lia].
  - destruct (apply_move b mv) as [b' |] eqn:Happ; [| discriminate].
    assert (Hmv : In mv ms) by (apply Hsub; now left).
    assert (Hsub' : forall mv0, In mv0 rest -> In mv0 ms)
      by (intros mv0 H0; apply Hsub; now right).
    assert (Hw : winSize b' = winSize b)
      by (destruct mv as [[o m] d]; now destruct (apply_move_fields b b' o m d Happ)
            as (_ & ? & _)).
    destruct (Z.eqb_spec (Z.of_nat (length (route b'))) (winSize b')) as [Hwin | Hgo].
    + injection H as <-. exists [b']. cbn [length map num_of_solutions report printed
        num_of_function_runs].
      split; [lia |].
      split; [| split; [now intros -> | split; [lia | discriminate]]].
      constructor; [| constructor]. exists 0%nat. split; [| congruence].
      econstructor; [exact Hms | exact Hmv | exact Happ | constructor].
    + destruct (rec b' st) as [[st1 |] |] eqn:Hr; [| discriminate | discriminate].
      destruct (Hrec b' st st1 Hr) as (wins1 & Hn1 & Hw1 & Hp1 & Hr1).
      destruct (IH Hsub' st1 st' H) as (wins2 & Hn2 & Hw2 & Hp2 & Hr2 & He2).
      exists (wins1 ++ wins2). rewrite length_app, map_app.
      split; [lia |]. split; [| split; [| split; [lia |]]].
      * apply Forall_app. split; [| exact Hw2].
        eapply Forall_impl; [exact Hw1 |]. intros w (k & Hreach & Hlen).
        exists (S k). split; [| congruence].
        econstructor; [exact Hms | exact Hmv | exact Happ | exact Hreach].
      * intros Hshow. rewrite (Hp2 Hshow), Hp1. now rewrite app_assoc.
      * intros Hnil. apply app_eq_nil in Hnil as [-> ->].
        rewrite (He2 eq_refl), Hp1. apply app_nil_r.
Qed.

Lemma find_solutions_sound (fuel : nat) :
  forall (b : Board) (show_solutions : bool) (st st' : Stats),
    find_solutions fuel b show_solutions st = Some (Ok st') ->
    exists wins,
      num_of_solutions st' = num_of_solutions st + Z.of_nat (length wins)
      /\ Forall (is_win b) wins
      /\ (show_solutions = true -> printed st' = printed st ++ map route wins)
      /\ num_of_function_runs st + 1 <= num_of_function_runs st'
      /\ (wins = [] -> printed st' = printed st).
Proof.
  induction fuel as [| fuel IH]; intros b show_solutions st st' H; [discriminate |].
  cbn [find_solutions] in H.
  destruct (valid_moves b) as [ms |] eqn:Hms; [| discriminate].
  destruct (length ms =? 0)%nat.
  - injection H as <-. exists []. cbn. rewrite app_nil_r.
    repeat split; [lia | constructor | lia].
  - assert (Hrec : forall b' s s',
              find_solutions fuel b' true s = Some (Ok s') ->
              exists wins,
                num_of_solutions s' = num_of_solutions s + Z.of_nat (length wins)
                /\ Forall (is_win b') wins
                /\ printed s' = printed s ++ map route wins
                /\ num_of_function_runs s <= num_of_function_runs s').
    { intros b' s s' Hr.
      destruct (IH b' true s s' Hr) as (wins & Hn & Hw & Hp & Hr' & _).
      exists wins. repeat split; auto. lia. }
    destruct (for_moves_sound (fun b0 s => find_solutions fuel b0 true s) b
                show_solutions ms ms Hms (fun _ H0 => H0) Hrec (count_run st) st' H)
      as (wins & Hn & Hw & Hp & Hr & He).
    exists wins. cbn [count_run num_of_solutions printed num_of_function_runs] in *.
    repeat split; auto.
Qed.

(** The last jump leaves a peg where it landed. *)
Lemma reached_has_peg (n : Z) (b : Board) (k : nat) (w : Board) :
  reached b k w -> shape n b -> (0 < k)%nat -> (1 <= pegs (holes w))%nat.
Proof.
  induction 1 as [b | b ms [[o m] d] b1 k b' Hms Hin Happ Hreach IH]; intros Hs Hk; [lia |].
  rewrite (valid_moves_ok n b ms Hs Hms) in Hin.
  destruct (apply_move_valid n b o m d Hs Hin) as (b2 & Happ2 & Hs2 & _ & _).
  assert (b2 = b1) by congruence. subst b2.
  destruct k as [| k]; [| apply IH; [exact Hs2 | lia]].
  inversion Hreach; subst.
  destruct (valid_move_facts n b o m d Hs Hin)
    as (Ho & Hm & Hd & Hom & Hod & Hmd & Hpo & Hpm & Hpd).
  destruct (peg_at_lookup _ _ Ho) as (ho & Hko & _).
  destruct (peg_at_lookup _ _ Hm) as (hm & Hkm & _).
  destruct (peg_at_lookup _ _ Hd) as (hd & Hkd & _).
  assert (Hne1 : Z.to_nat d <> Z.to_nat o) by lia.
  assert (Hne2 : Z.to_nat d <> Z.to_nat m) by lia.
  rewrite (apply_move_slots b o m d (Z.to_nat o) (Z.to_nat m) (Z.to_nat d) ho hm hd)
    in Happ by (try apply py_slot_in_range; assumption).
  injection Happ as <-. cbn [holes].
  apply (pegs_with_peg _ (Z.to_nat d) (set_has_peg hd true)); [| reflexivity].
  apply list_lookup_insert_eq. rewrite !length_insert. lia.
Qed.

End Soundness.

Section AgainstSpecification.

(** When every move of the list wins, the specification's loop only counts. *)
Lemma spec_for_moves_all_win (rec : Board -> Stats -> option (result Stats))
    (b : Board) (todo : list Move) :
  Z.of_nat (length (route b)) + 1 = winSize b ->
  forall st s, spec_for_moves rec b todo st = Some (Ok s) ->
    num_of_function_runs s = num_of_function_runs st
    /\ num_of_solutions st <= num_of_solutions s.
Proof.
  intros Hwin. induction todo as [| mv rest IH]; intros st s H; cbn [spec_for_moves] in H.
  - injection H as <-. lia.
  - destruct (apply_move b mv) as [b' |] eqn:Happ; [| discriminate].
    rewrite (apply_move_win b b' mv Happ) in H.
    rewrite (proj2 (Z.eqb_eq _ _) Hwin) in H.
    apply IH in H. cbn [report num_of_function_runs num_of_solutions] in H. lia.
Qed.

Lemma for_moves_against_spec (rec rec' : Board -> Stats -> option (result Stats))
    (b : Board) (show_solutions : bool) (todo : list Move) :
  (forall b' st1 st2 s1 s2, rec b' st1 = Some (Ok s1) -> rec' b' st2 = Some (Ok s2) ->
                            same_runs_fewer_wins st1 s1 st2 s2) ->
  forall st1 st2 s1 s2,
    for_moves rec b show_solutions todo st1 = Some (Ok s1) ->
    spec_for_moves rec' b todo st2 = Some (Ok s2) ->
    same_runs_fewer_wins st1 s1 st2 s2.
Proof.
  intros Hrec. unfold same_runs_fewer_wins in *.
  induction todo as [| mv rest IH]; intros st1 st2 s1 s2 H1 H2;
    cbn [for_moves spec_for_moves] in H1, H2.
  - injection H1 as <-. injection H2 as <-. lia.
  - destruct (apply_move b mv) as [b' |] eqn:Happ; [| discriminate].
    rewrite (apply_move_win b b' mv Happ) in H1, H2.
    destruct (Z.eqb_spec (Z.of_nat (length (route b)) + 1) (winSize b)) as [Hwin | Hgo].
    + injection H1 as <-.
      apply (spec_for_moves_all_win rec' b rest Hwin) in H2.
      cbn [report num_of_function_runs num_of_solutions] in *. lia.
    + destruct (rec b' st1) as [[t1 |] |] eqn:Hr1; [| discriminate | discriminate].
      destruct (rec' b' st2) as [[t2 |] |] eqn:Hr2; [| discriminate | discriminate].
      pose proof (Hrec b' st1 st2 t1 t2 Hr1 Hr2) as Ha.
      pose proof (IH t1 t2 s1 s2 H1 H2) as Hb. lia.
Qed.

Lemma find_solutions_against_spec (fuel : nat) :
  forall (b : Board) (show_solutions : bool) (st1 st2 s1 s2 : Stats),
    find_solutions fuel b show_solutions st1 = Some (Ok s1) ->
    spec_search fuel b st2 = Some (Ok s2) ->
    same_runs_fewer_wins st1 s1 st2 s2.
Proof.
  induction fuel as [| fuel IH]; intros b show_solutions st1 st2 s1 s2 H1 H2;
    [discriminate |].
  cbn [find_solutions spec_search] in H1, H2.
  destruct (valid_moves b) as [ms |]; [| discriminate].
  assert (Hloop : same_runs_fewer_wins (count_run st1) s1 (count_run st2) s2).
  { destruct ms as [| mv rest].
    - cbn in H1, H2. injection H1 as <-. injection H2 as <-.
      unfold same_runs_fewer_wins. lia.
    - cbn [length Nat.eqb] in H1.
      eapply for_moves_against_spec; [| exact H1 | exact H2].
      intros b' t1 t2 u1 u2. apply IH. }
  unfold same_runs_fewer_wins in *.
  cbn [count_run num_of_function_runs num_of_solutions] in Hloop. lia.
Qed.

End AgainstSpecification.


(** * Further properties *)

(** X1. On a board of the shape of [Board(n)] the candidates stored in a hole
    at [(row, offset)] are exactly the jumps in the six directions of the
    triangular grid whose landing hole is a coordinate of the board, with the
    hole one step away as the hole jumped over, in the order east, northeast,
    west, northwest, south-west, south-east. *)
Theorem candidates_are_jumps (n : Z) (b : Board) (k : nat) (h : Hole) :
  shape n b -> holes b !! k = Some h ->
  exists r o,
    valid_coord n r o /\ pos h = positionOf r o
    /\ moves h = map (jump_from r o) (List.filter (lands_on_board n r o) directions).
Proof.
  intros Hs Hk.
  destruct (shape_lookup n b Hs k h Hk) as (r & o & Hv & Hp & Hpos & Hmv).
  exists r, o. split; [exact Hv |]. split; [congruence |].
  rewrite Hmv, Hp. now apply candidateMoves_directions.
Qed.

Lemma candidates_are_jumps_witness :
  exists r o,
    valid_coord 5 r o /\ pos (Hole_init 5 3 2 0) = positionOf r o
    /\ moves (Hole_init 5 3 2 0)
       = map (jump_from r o) (List.filter (lands_on_board 5 r o) directions).
Proof.
  apply (candidates_are_jumps 5 main_board 3 (Hole_init 5 3 2 0)).
  - repeat split; vm_compute; reflexivity.
  - vm_compute; reflexivity.
Defined.

(** X2. Jumps can be taken back: when a hole stores the candidate
    [(mid, dest)], the hole at [dest] is on the board and stores the
    candidate [(mid, position of the first hole)]. *)
Theorem jumps_reverse (n : Z) (b : Board) (k : nat) (h : Hole) (m d : Z) :
  shape n b -> holes b !! k = Some h -> In (m, d) (moves h) ->
  exists hd, 0 <= d /\ holes b !! Z.to_nat d = Some hd /\ pos hd = d
             /\ In (m, pos h) (moves hd).
Proof.
  intros Hs Hk Hin.
  destruct (shape_lookup n b Hs k h Hk) as (r & o & Hv & Hp & Hpos & Hmv).
  rewrite Hmv, Hp, (candidateMoves_directions n r o Hv) in Hin.
  apply in_map_iff in Hin as (dir & Hj & Hf). apply filter_In in Hf as [Hdir Hland].
  destruct (reverse_jump n r o dir Hv Hdir Hland) as (Hv' & Hdir' & Hland' & Hj').
  assert (Hd : d = positionOf (r + 2 * fst dir) (o + 2 * snd dir))
    by (unfold jump_from in Hj; congruence).
  pose proof (positionOf_bounds n _ _ Hv') as Hb. rewrite <- Hd in Hb.
  assert (0 < n) by (destruct Hv; lia).
  destruct (lookup_lt_is_Some_2 (holes b) (Z.to_nat d)) as [hd Hkd].
  { pose proof (shape_length n b Hs) as Hlen. rewrite Z.max_l in Hlen by lia. lia. }
  destruct (shape_lookup n b Hs _ hd Hkd) as (r2 & o2 & Hv2 & Hp2 & Hpos2 & Hmv2).
  rewrite Z2Nat.id in Hp2, Hpos2, Hmv2 by lia.
  destruct Hv' as [Ho' Hr'], Hv2 as [Ho2 Hr2].
  destruct (positionOf_inj _ _ _ _ Ho2 Ho' (eq_trans (eq_sym Hp2) Hd)) as [-> ->].
  exists hd. split; [lia |]. split; [exact Hkd |]. split; [exact Hpos2 |].
  rewrite Hmv2, Hd, (candidateMoves_directions n _ _ (conj Ho' Hr')).
  apply in_map_iff. exists (- fst dir, - snd dir).
  split; [| apply filter_In; split; assumption].
  rewrite Hj', Hpos, Hp, Hj. reflexivity.
Qed.

Lemma jumps_reverse_witness :
  exists hd, 0 <= 12 /\ holes main_board !! Z.to_nat 12 = Some hd /\ pos hd = 12
             /\ In (7, pos (Hole_init 5 3 2 0)) (moves hd).
Proof.
  apply (jumps_reverse 5 main_board 3 (Hole_init 5 3 2 0) 7 12).
  - repeat split; vm_compute; reflexivity.
  - vm_compute; reflexivity.
  - vm_compute; tauto.
Defined.

(** X3. For [n <= 0] the constructor builds a board without holes, although
    [numHoles] is [n * (n + 1) / 2], which is positive from [n = -2] down;
    no position can be emptied on such a board. *)
Theorem Board_init_without_holes (n : Z) :
  n <= 0 ->
  holes (Board_init n) = []
  /\ numHoles (Board_init n) = n * (n + 1) / 2
  /\ 0 <= numHoles (Board_init n)
  /\ (n <= -2 -> 0 < numHoles (Board_init n))
  /\ (forall p, createBoard n [p] = IndexError).
Proof.
  intros Hn.
  assert (Hh : holes (Board_init n) = []).
  { rewrite holes_Board_init. unfold coords_upto. now rewrite range_nonpos. }
  pose proof (positionOf_double n 0) as Hd.
  rewrite numHoles_Board_init.
  split; [exact Hh |]. split; [unfold positionOf; lia |].
  split; [nia |]. split; [intros; nia |].
  intros p. unfold createBoard. cbn [remove_pegs]. unfold remove_peg.
  rewrite (proj2 (set_peg_error (holes (Board_init n)) p false));
    [reflexivity | rewrite Hh; cbn [length]; lia].
Qed.

Lemma Board_init_without_holes_witness :
  -2 <= 0 /\ holes (Board_init (-2)) = [] /\ numHoles (Board_init (-2)) = 1.
Proof.
  destruct (Board_init_without_holes (-2)) as (Hh & Hn & _); [lia |].
  split; [lia | split; [exact Hh | exact Hn]].
Defined.

(** X4. On a board of side at most 2 no hole has a candidate; whatever the
    pegs, [valid_moves] returns the empty list and [find_solutions] returns
    after one run, counting and printing nothing. *)
Theorem small_boards_have_no_moves (n : Z) (b : Board) (fuel : nat)
    (show_solutions : bool) (st : Stats) :
  n <= 2 -> shape n b ->
  Forall (fun h => moves h = []) (holes b)
  /\ valid_moves b = Ok []
  /\ find_solutions (S fuel) b show_solutions st = Some (Ok (count_run st)).
Proof.
  intros Hn Hs.
  assert (Hall : Forall (fun h => moves h = []) (holes b)).
  { apply Forall_forall. intros h Hh. apply list_elem_of_lookup in Hh as [k Hk].
    destruct (shape_lookup n b Hs k h Hk) as (r & o & Hv & _ & _ & ->).
    now apply small_side_no_candidates. }
  pose proof (no_candidates_no_moves b Hall) as Hnil.
  split; [exact Hall |]. split.
  - rewrite (valid_moves_shape n b Hs). now rewrite Hnil.
  - now apply (find_solutions_no_moves n).
Qed.

Lemma small_boards_have_no_moves_witness :
  2 <= 2 /\ valid_moves (board_of 2 [0]) = Ok [].
Proof.
  split; [lia |].
  destruct (small_boards_have_no_moves 2 (board_of 2 [0]) 0 true stats0) as (_ & H & _);
    [lia | repeat split; vm_compute; reflexivity | exact H].
Defined.


(** X5. A board with at most one peg, or with a peg in every hole, has no
    valid move: [valid_moves] returns the empty list and [find_solutions]
    returns after one run.  A freshly constructed board is such a board. *)
Theorem no_moves_without_pegs_or_gap (n : Z) (b : Board) :
  shape n b ->
  (pegs (holes b) <= 1)%nat \/ pegs (holes b) = length (holes b) ->
  valid_moves b = Ok []
  /\ (forall fuel show_solutions st,
        find_solutions (S fuel) b show_solutions st = Some (Ok (count_run st)))
  /\ valid_moves (Board_init n) = Ok [].
Proof.
  assert (Hgen : forall b0, shape n b0 ->
            (pegs (holes b0) <= 1)%nat \/ pegs (holes b0) = length (holes b0) ->
            validMoves_spec b0 = []).
  { intros b0 Hs0 Hp0. destruct (validMoves_spec b0) as [| mv rest] eqn:Hms; [reflexivity |].
    assert (Hin : In mv (validMoves_spec b0)) by (rewrite Hms; now left).
    pose proof (move_needs_pegs n b0 mv Hs0 Hin). lia. }
  intros Hs Hp. pose proof (Hgen b Hs Hp) as Hnil.
  split; [rewrite (valid_moves_shape n b Hs); now rewrite Hnil |].
  split; [intros; now apply (find_solutions_no_moves n) |].
  rewrite (valid_moves_shape n _ (shape_Board_init n)).
  rewrite (Hgen _ (shape_Board_init n)); [reflexivity |]. right.
  unfold pegs. rewrite forallb_filter_id; [reflexivity |].
  apply forallb_forall. apply Board_init_all_pegs.
Qed.

Lemma no_moves_without_pegs_or_gap_witness :
  valid_moves won_board = Ok [].
Proof.
  destruct (no_moves_without_pegs_or_gap 5 won_board) as (H & _).
  - repeat split; vm_compute; reflexivity.
  - left. vm_compute. lia.
  - exact H.
Defined.

(** X6. Every move that [valid_moves] returns on a board of the shape of
    [Board(n)] joins three different holes in a straight line of the grid:
    the origin at a valid coordinate, the middle hole one step and the
    landing hole two steps away in one of the six directions, the landing
    hole on the board; applying it takes exactly one peg off the board. *)
Theorem enumerated_move_is_jump (n : Z) (b : Board) (ms : list Move) (o m d : Z) :
  shape n b -> valid_moves b = Ok ms -> In (o, m, d) ms ->
  (o <> m /\ o <> d /\ m <> d)
  /\ (exists r c dir,
        valid_coord n r c /\ In dir directions
        /\ valid_coord n (r + 2 * fst dir) (c + 2 * snd dir)
        /\ o = positionOf r c /\ (m, d) = jump_from r c dir)
  /\ (exists b', apply_move b (o, m, d) = Ok b'
                 /\ S (pegs (holes b')) = pegs (holes b)).
Proof.
  intros Hs Hms Hin. rewrite (valid_moves_ok n b ms Hs Hms) in Hin.
  destruct (valid_move_facts n b o m d Hs Hin) as (_ & _ & _ & Hom & Hod & Hmd & _).
  split; [auto |]. split.
  - apply In_validMoves_spec in Hin as (k & h & Hk & _ & -> & Hc & _).
    destruct (shape_lookup n b Hs k h Hk) as (r & c & Hv & Hp & Hpos & Hmv).
    rewrite Hmv, Hp, (candidateMoves_directions n r c Hv) in Hc.
    apply in_map_iff in Hc as (dir & Hj & Hf). apply filter_In in Hf as [Hdir Hland].
    destruct (reverse_jump n r c dir Hv Hdir Hland) as (Hv' & _).
    exists r, c, dir. repeat split; try apply Hv; try apply Hv'; auto; congruence.
  - destruct (apply_move_valid n b o m d Hs Hin) as (b' & Happ & _ & _ & Hpegs). eauto.
Qed.

Lemma enumerated_move_is_jump_witness :
  3 <> 1 /\ 3 <> 0 /\ 1 <> 0.
Proof.
  destruct (enumerated_move_is_jump 5 main_board [(3, 1, 0); (5, 2, 0)] 3 1 0) as (H & _).
  - repeat split; vm_compute; reflexivity.
  - vm_compute; reflexivity.
  - now left.
  - exact H.
Defined.

(** X7. What the search reports is sound: the routes printed by
    [find_solutions(board, True)] are, in order, the routes of boards reached
    from [board] by jumps of the enumerator, each with [winSize] pairs;
    [num_of_solutions] grows by their number and [num_of_function_runs] by
    one at least. *)
Theorem reported_solutions_are_legal (fuel : nat) (b : Board) (st st' : Stats) :
  find_solutions fuel b true st = Some (Ok st') ->
  exists wins,
    printed st' = printed st ++ map route wins
    /\ num_of_solutions st' = num_of_solutions st + Z.of_nat (length wins)
    /\ Forall (is_win b) wins
    /\ num_of_function_runs st + 1 <= num_of_function_runs st'.
Proof.
  intros H. destruct (find_solutions_sound fuel b true st st' H)
    as (wins & Hn & Hw & Hp & Hr & _).
  exists wins. auto.
Qed.

Lemma reported_solutions_are_legal_witness :
  exists wins,
    [twelve_routes ++ [(1, 6)]] = [] ++ map route wins
    /\ 1 = 0 + Z.of_nat (length wins)
    /\ Forall (is_win two_pegs_board) wins
    /\ 0 + 1 <= 1.
Proof.
  apply (reported_solutions_are_legal 15 two_pegs_board stats0
           {| num_of_solutions := 1; num_of_function_runs := 1;
              printed := [twelve_routes ++ [(1, 6)]] |}).
  vm_compute. reflexivity.
Defined.

(** X8. On a board of the shape of [Board(n)] with an empty route, the search
    counts and prints a solution only if exactly one hole is empty: with any
    other number of pegs [num_of_solutions] and the output stay as they
    were. *)
Theorem solutions_need_one_empty_hole (n : Z) (fuel : nat) (b : Board)
    (show_solutions : bool) (st st' : Stats) :
  shape n b -> route b = [] ->
  Z.of_nat (pegs (holes b)) <> numHoles b - 1 ->
  find_solutions fuel b show_solutions st = Some (Ok st') ->
  num_of_solutions st' = num_of_solutions st /\ printed st' = printed st.
Proof.
  intros Hs Hroute Hpegs H.
  assert (Hnone : forall w, ~ is_win b w).
  { intros w (k & Hreach & Hlen). apply Hpegs.
    destruct (reached_invariant n b (S k) w Hreach Hs) as (Hs' & Hlen' & Hcount).
    pose proof (reached_has_peg n b (S k) w Hreach Hs ltac:(lia)) as Hone.
    inversion Hreach as [| b0 ms mv b1 k0 w0 Hms Hin Happ Hrest]; subst.
    rewrite (valid_moves_ok n b ms Hs Hms) in Hin.
    pose proof (move_needs_pegs n b mv Hs Hin) as Hgap.
    assert (0 < n).
    { destruct (lookup_lt_is_Some_2 (holes b) 0) as [h Hh]; [lia |].
      destruct (shape_lookup n b Hs 0%nat h Hh) as (r & o & [Ho Hr] & _). lia. }
    pose proof (shape_numHoles n b Hs ltac:(lia)) as Hnh.
    assert (Hws : winSize b = numHoles b - 2)
      by (destruct Hs as (_ & -> & -> & _); reflexivity).
    rewrite Hroute in Hlen'. cbn [length] in Hlen'. lia. }
  destruct (find_solutions_sound fuel b show_solutions st st' H)
    as (wins & Hn & Hw & _ & _ & He).
  destruct wins as [| w wins].
  - cbn [length] in Hn. split; [lia | now apply He].
  - exfalso. apply (Hnone w). now inversion Hw.
Qed.

Lemma solutions_need_one_empty_hole_witness :
  find_solutions 15 (board_of 3 [0; 1]) true stats0
  = Some (Ok {| num_of_solutions := 0; num_of_function_runs := 3; printed := [] |})
  /\ num_of_solutions
       {| num_of_solutions := 0; num_of_function_runs := 3; printed := [] |}
     = num_of_solutions stats0.
Proof.
  assert (H : find_solutions 15 (board_of 3 [0; 1]) true stats0
              = Some (Ok {| num_of_solutions := 0; num_of_function_runs := 3;
                            printed := [] |}))
    by (vm_compute; reflexivity).
  split; [exact H |].
  destruct (solutions_need_one_empty_hole 3 15 (board_of 3 [0; 1]) true stats0 _
              ltac:(repeat split; vm_compute; reflexivity)
              ltac:(vm_compute; reflexivity)
              ltac:(vm_compute; discriminate) H) as (Hn & _).
  exact Hn.
Defined.

(** X9. The return at the first win skips wins only. When the search and
    the search of the specification both return on a board, they have made
    the same number of runs, the search has counted at most as many
    solutions, and it has counted none only if there is none to count. *)
Theorem early_return_skips_only_wins (fuel : nat) (b : Board)
    (show_solutions : bool) (st s1 s2 : Stats) :
  find_solutions fuel b show_solutions st = Some (Ok s1) ->
  spec_search fuel b st = Some (Ok s2) ->
  num_of_function_runs s1 = num_of_function_runs s2
  /\ num_of_solutions st <= num_of_solutions s1 <= num_of_solutions s2
  /\ (num_of_solutions s1 = num_of_solutions st <->
      num_of_solutions s2 = num_of_solutions st).
Proof.
  intros H1 H2.
  pose proof (find_solutions_against_spec fuel b show_solutions st st s1 s2 H1 H2) as H.
  unfold same_runs_fewer_wins in H. lia.
Qed.

Lemma early_return_skips_only_wins_witness :
  3 = 3 /\ 0 <= 2 <= 3 /\ (2 = 0 <-> 3 = 0).
Proof.
  apply (early_return_skips_only_wins 15 three_pegs_board true stats0
           {| num_of_solutions := 2; num_of_function_runs := 3;
              printed := [firstn 11 twelve_routes ++ [(1, 8); (5, 12)];
                          twelve_routes ++ [(1, 6)]] |}
           {| num_of_solutions := 3; num_of_function_runs := 3;
              printed := [firstn 11 twelve_routes ++ [(1, 8); (5, 12)];
                          twelve_routes ++ [(1, 6)];
                          twelve_routes ++ [(3, 0)]] |});
    vm_compute; reflexivity.
Defined.

(** X10. [show_solutions] is consulted only where the next jump completes
    the route: on a board whose route is not one pair short of [winSize],
    [find_solutions(board, False)] does all that [find_solutions(board, True)]
    does, printing included, the recursive calls being made with the default
    [True]. *)
Theorem show_solutions_only_at_last_jump (fuel : nat) (b : Board) (st : Stats) :
  Z.of_nat (length (route b)) + 1 <> winSize b ->
  find_solutions fuel b false st = find_solutions fuel b true st.
Proof.
  intros Hne. destruct fuel as [| fuel]; [reflexivity |]. cbn [find_solutions].
  destruct (valid_moves b) as [ms |]; [| reflexivity].
  destruct (length ms =? 0)%nat; [reflexivity |].
  now apply for_moves_show.
Qed.

Lemma show_solutions_only_at_last_jump_witness :
  find_solutions 15 three_pegs_board false stats0
  = Some (Ok {| num_of_solutions := 2; num_of_function_runs := 3;
                printed := [firstn 11 twelve_routes ++ [(1, 8); (5, 12)];
                            twelve_routes ++ [(1, 6)]] |}).
Proof.
  rewrite (show_solutions_only_at_last_jump 15 three_pegs_board stats0).
  - vm_compute. reflexivity.
  - vm_compute. discriminate.
Defined.

(** X11. The counters are accumulated, not reset: a search started with the
    counters and output of earlier searches returns those with the counters
    and output of the same search started from zero added to them. *)
Theorem counters_accumulate (fuel : nat) (b : Board) (show_solutions : bool)
    (st : Stats) :
  find_solutions fuel b show_solutions st
  = on_result (accumulate st) (find_solutions fuel b show_solutions stats0).
Proof.
  rewrite <- (accumulate_stats0 st) at 1. apply find_solutions_accumulate.
Qed.

(** X12. For a side [n >= 0], a board built by emptying the given positions
    has the shape of [Board(n)] and an empty route, and a hole of it has a
    peg exactly when no given position designates it, counted from the front
    or, when negative, from the end; giving a position twice changes
    nothing. *)
Theorem createBoard_pegs (n : Z) (ps : list Z) (b : Board) (q : Z) :
  0 <= n -> createBoard n ps = Ok b -> 0 <= q < numHoles (Board_init n) ->
  shape n b /\ route b = []
  /\ peg_at (holes b) q
     = negb (existsb (fun p => (p =? q) || (p + numHoles (Board_init n) =? q)) ps).
Proof.
  intros Hn Hb Hq.
  destruct (createBoard_shape n ps b Hb) as [Hs Hr].
  split; [exact Hs |]. split; [exact Hr |].
  pose proof (shape_numHoles n _ (shape_Board_init n) Hn) as Hlen.
  unfold createBoard in Hb.
  rewrite (remove_pegs_peg_at ps _ b q Hb) by lia. rewrite Hlen.
  replace (peg_at (holes (Board_init n)) q) with true; [reflexivity |].
  destruct (peg_at_lookup (holes (Board_init n)) q) as (h & Hk & <-); [lia |].
  symmetry. apply (Board_init_all_pegs n).
  apply list_elem_of_In, list_elem_of_lookup. eauto.
Qed.

Lemma createBoard_pegs_witness :
  peg_at (holes (board_of 5 [0; -1; 0])) 14
  = negb (existsb (fun p => (p =? 14) || (p + numHoles (Board_init 5) =? 14))
                  [0; -1; 0]).
Proof.
  destruct (createBoard_pegs 5 [0; -1; 0] (board_of 5 [0; -1; 0]) 14) as (_ & _ & H).
  - lia.
  - vm_compute. reflexivity.
  - vm_compute. split; [discriminate | reflexivity].
  - exact H.
Defined.
